(** * PageAgent: the step-driven control loop and the macro-tool dispatch

    A shallow embedding of [src/PageAgent.ts] (class [PageAgent]: the
    constructor, [execute], [#packMacroTool], [#onDone] and [dispose]).

    The agent is a record of its fields and every method is a function in a
    small state-and-exception monad.  What the agent awaits (the lifecycle
    hooks, the model client, the executor of a tool, the clock, and whoever
    pauses or disposes the agent from outside) is not code of the class: it is
    supplied by a _world_, a script that says, for every await of one task,
    what happens while the agent is suspended and how the awaited call comes
    back.  A world that ends while the loop is still running leaves the run
    [Block]ed.

    Numbers are IEEE 754 doubles, as in the language.  Where the code turns a
    number into a string or a string into a number, and where the engine
    words an error of its own, the model asks a [Runtime], which stands for
    the engine. *)

From stdpp Require Import base option list strings gmap pretty.
From Stdlib Require Import Ascii QArith PrimFloat FloatOps SpecFloat.
From Stdlib Require Uint63.

Set Warnings "-register-all".

Local Open Scope Z_scope.
Local Open Scope string_scope.

(** ** JavaScript values *)

(** The JSON-like values that travel through the loop ([any] in the source).
    A number is a double.  An object is a plain object, as [JSON.parse] makes
    it: the list of its own properties in enumeration order, none of them a
    function, with [Object.prototype] behind it. *)
Inductive jsval : Type :=
  | JUndefined
  | JNull
  | JBool (b : bool)
  | JNum (x : float)
  | JStr (s : string)
  | JObj (properties : list (string * jsval)).

Definition object : Type := list (string * jsval).

(** [Object.keys(o)] *)
Definition Object_keys (o : object) : list string := o.*1.

(** [o[k]] on an object: the value of the property, [undefined] without it. *)
Fixpoint prop (o : object) (k : string) : jsval :=
  match o with
  | [] => JUndefined
  | (k', v) :: o' => if decide (k' = k) then v else prop o' k
  end.

(** [o[k]] where the key is itself the result of [Object.keys(o)[0]], hence
    possibly [undefined], which JavaScript turns into the key "undefined". *)
Definition index (o : object) (k : option string) : jsval :=
  prop o (default "undefined" k).

(** [v?.k]: [undefined] on [undefined] and [null]; a primitive has none of
    the properties read here. *)
Definition opt_chain (v : jsval) (k : string) : jsval :=
  match v with
  | JObj o => prop o k
  | _ => JUndefined
  end.

(** [a ?? b] *)
Definition nullish (a b : jsval) : jsval :=
  match a with
  | JUndefined | JNull => b
  | _ => a
  end.

(** Truthiness, and [a || b]. *)
Definition truthy (v : jsval) : bool :=
  match v with
  | JUndefined | JNull => false
  | JBool b => b
  | JNum x => negb (PrimFloat.is_zero x || PrimFloat.is_nan x)
  | JStr s => negb (bool_decide (s = ""))
  | JObj _ => true
  end.

Definition js_or (a b : jsval) : jsval := if truthy a then a else b.

(** [s || ''] on an optional string field. *)
Definition or_empty (s : option string) : string := default "" s.

(** ** Numbers *)

(** [#totalWaitTime] is a number: a double. *)
Definition number : Type := float.

(** The double of an integer below 2^63 in absolute value. *)
Definition of_Z (z : Z) : float :=
  if (z <? 0)%Z then (- of_uint63 (Uint63.of_Z (- z)))%float
  else of_uint63 (Uint63.of_Z z).

(** The integer nearest to [(-1)^s * m * 2^e] for [e < 0], the upper one of
    two that are equally near. *)
Definition nearest_integer (s : bool) (m : positive) (e : Z) : Z :=
  ((if s then Z.neg m else Z.pos m) + 2 ^ (- e - 1)) / 2 ^ (- e).

(** [Math.round x]: [x] itself when it is an integer, an infinity or [NaN];
    otherwise the integer nearest to [x], the upper one of two that are
    equally near, with the sign of [x] when that integer is zero. *)
Definition Math_round (x : float) : float :=
  match Prim2SF x with
  | S754_finite s m e =>
      if (0 <=? e)%Z then x
      else let n := nearest_integer s m e in
           if (n =? 0)%Z then (if s then neg_zero else zero) else of_Z n
  | _ => x
  end.

(** [n >= 3] *)
Definition ge3 (n : number) : bool := (3 <=? n)%float.

(** ** The engine *)

(** What the code reaches of the engine and of the language's conversions
    between numbers and strings: [Number::toString], which a template literal
    and [+] with a string apply to a number; [StringToNumber], which
    [Math.round] applies to a string; and the messages of the two
    [TypeError]s the engine can raise in the wait accounting, for reading a
    property of [undefined] or [null] and for an object that has no
    primitive value. *)
Class Runtime : Type := mkRuntime {
  Number_toString : float -> string;
  StringToNumber : string -> float;
  cannot_read : jsval -> string -> string;
  cannot_convert : string;
}.

(** ** Errors *)

(** Every value thrown inside [execute], by where it is raised. *)
Inductive error : Type :=
  | TaskRequired                        (* new Error('Task is required') *)
  | AbortError                          (* new Error('AbortError') *)
  | ToolNotFound (toolName : option string)  (* the failed [assert(tool, ...)] *)
  | LLMError (description : string)     (* rejected by [llm.invoke]: decoding, transport *)
  | ToolError (description : string)    (* raised by a tool's executor *)
  | TypeError (message : string)        (* raised by the engine in the wait accounting *)
  | HookError (description : string).   (* raised by a lifecycle hook *)

(** [String(error)].  [assert] (utils/assert) is taken to throw an [Error]
    carrying its message.  What the model client, a tool or a hook throws is
    given by its description, the string [String] makes of it. *)
Definition String_ (e : error) : string :=
  match e with
  | TaskRequired => "Error: Task is required"
  | AbortError => "Error: AbortError"
  | ToolNotFound toolName =>
      "Error: Tool " ++ default "undefined" toolName
        ++ " not found. (@note should have been caught before this!!!)"
  | TypeError message =>
      if decide (message = "") then "TypeError" else "TypeError: " ++ message
  | LLMError d | ToolError d | HookError d => d
  end.

(** The errors a lifecycle hook raises are the only ones outside the
    taxonomy of the loop. *)
Definition from_hook (e : error) : bool :=
  match e with HookError _ => true | _ => false end.

(** ** Tools, the registry and the composed schema *)

(** The shapes [zod] builds, as far as [#packMacroTool] builds them. *)
Inductive ZodType : Type :=
  | ZString
  | ZNumber
  | ZBoolean
  | ZAny
  | ZOptional (t : ZodType)
  | ZObject (shape : list (string * ZodType))
  | ZUnion (options : list ZodType).

(** A tool: its input shape and its executor.  The executor is code of the
    tool, not of the loop: the world says what running it gives. *)
Record Tool : Type := mkTool {
  description : string;
  inputSchema : ZodType;
  executor : nat;
}.

Record PageAgentConfig : Type := mkConfig {
  customTools : option (list (string * option Tool));
}.

(** The loop of the constructor over [Object.entries(config.customTools)]. *)
Definition apply_customTools
    (entries : list (string * option Tool)) (tools : gmap string Tool)
    : gmap string Tool :=
  foldl (fun m entry =>
           match entry.2 with
           | None => delete entry.1 m
           | Some tool => <[entry.1 := tool]> m
           end) tools entries.

(** [actionSchemas]: one single-key object per entry of the registry. *)
Definition actionSchemas (tools : gmap string Tool) : list ZodType :=
  (fun entry => ZObject [(entry.1, inputSchema entry.2)]) <$> map_to_list tools.

(** [macroToolSchema] *)
Definition macroToolSchema (tools : gmap string Tool) : ZodType :=
  ZObject [ ("evaluation_previous_goal", ZOptional ZString);
            ("memory", ZOptional ZString);
            ("next_goal", ZOptional ZString);
            ("action", ZUnion (actionSchemas tools)) ].

(** Reading a composed schema: the shape under a key of an object schema,
    the variants of the union under [action], and the tool names that key
    these variants. *)
Fixpoint field (shape : list (string * ZodType)) (k : string) : option ZodType :=
  match shape with
  | [] => None
  | (k', t) :: shape' => if decide (k' = k) then Some t else field shape' k
  end.

Definition action_variants (schema : ZodType) : list ZodType :=
  match schema with
  | ZObject shape =>
      match field shape "action" with
      | Some (ZUnion options) => options
      | _ => []
      end
  | _ => []
  end.

Definition variant_key (variant : ZodType) : option string :=
  match variant with
  | ZObject [(toolName, _)] => Some toolName
  | _ => None
  end.

Definition schema_names (schema : ZodType) : list string :=
  omap variant_key (action_variants schema).

(** ** The agent *)

Record AgentBrain : Type := mkBrain {
  evaluation_previous_goal : string;
  memory : string;
  next_goal : string;
}.

Record MacroToolInput : Type := mkInput {
  in_evaluation_previous_goal : option string;
  in_memory : option string;
  in_next_goal : option string;
  action : object;
}.

Record MacroToolResult : Type := mkMacroResult {
  input : MacroToolInput;
  output : string;
}.

Record Action : Type := mkAction {
  name : option string;
  action_input : jsval;
  action_output : string;
}.

Record Usage : Type := mkUsage {
  promptTokens : Z;
  completionTokens : Z;
  totalTokens : Z;
  cachedTokens : option Z;
  reasoningTokens : option Z;
}.

Record AgentHistory : Type := mkHistory {
  brain : AgentBrain;
  history_action : Action;
  usage : Usage;
}.

(** [success] and [data] are whatever the terminal tool's input holds: at run
    time nothing forces them to be a boolean and a string. *)
Record ExecutionResult : Type := mkResult {
  success : jsval;
  data : jsval;
  result_history : list AgentHistory;
}.

(** An [AbortController]: which one it is, and whether its signal is
    aborted. *)
Record AbortController : Type := mkController {
  controller_id : nat;
  aborted : bool;
}.

(** What the agent tells its collaborators, in order: the lifecycle hooks it
    calls, the done notification, the model calls and the tool runs. *)
Inductive event : Type :=
  | Hook_onBeforeTask
  | Hook_onBeforeStep (step : nat)
  | Hook_onAfterStep (step : nat) (history : list AgentHistory)
  | Hook_onAfterTask (result : ExecutionResult)
  | Hook_onDispose (reason : option string)
  | Done_notified (text : jsval) (success : jsval)
  | LLM_invoked (schema : ZodType)
  | Tool_executing (toolName : string) (toolInput : jsval).

(** The fields of the class that the loop reads or writes, and [log], the
    trace of what the agent has told its collaborators so far. *)
Record PageAgent : Type := mkAgent {
  tools : gmap string Tool;
  paused : bool;
  disposed : bool;
  task : string;
  taskId : string;
  totalWaitTime : number;
  abortController : AbortController;
  history : list AgentHistory;
  log : list event;
}.

(** The constructor. *)
Definition new_PageAgent (builtin : gmap string Tool) (config : PageAgentConfig)
    : PageAgent :=
  {| tools := match customTools config with
              | Some entries => apply_customTools entries builtin
              | None => builtin
              end;
     paused := false;
     disposed := false;
     task := "";
     taskId := "";
     totalWaitTime := 0%float;
     abortController := mkController 0 false;
     history := [];
     log := [] |}.

Definition set_paused (b : bool) (a : PageAgent) : PageAgent :=
  mkAgent (tools a) b (disposed a) (task a) (taskId a) (totalWaitTime a)
          (abortController a) (history a) (log a).
Definition set_disposed (b : bool) (a : PageAgent) : PageAgent :=
  mkAgent (tools a) (paused a) b (task a) (taskId a) (totalWaitTime a)
          (abortController a) (history a) (log a).
Definition set_task (t i : string) (a : PageAgent) : PageAgent :=
  mkAgent (tools a) (paused a) (disposed a) t i (totalWaitTime a)
          (abortController a) (history a) (log a).
Definition set_totalWaitTime (n : number) (a : PageAgent) : PageAgent :=
  mkAgent (tools a) (paused a) (disposed a) (task a) (taskId a) n
          (abortController a) (history a) (log a).
Definition set_abortController (c : AbortController) (a : PageAgent) : PageAgent :=
  mkAgent (tools a) (paused a) (disposed a) (task a) (taskId a) (totalWaitTime a)
          c (history a) (log a).
Definition set_history (h : list AgentHistory) (a : PageAgent) : PageAgent :=
  mkAgent (tools a) (paused a) (disposed a) (task a) (taskId a) (totalWaitTime a)
          (abortController a) h (log a).
Definition emit (e : event) (a : PageAgent) : PageAgent :=
  mkAgent (tools a) (paused a) (disposed a) (task a) (taskId a) (totalWaitTime a)
          (abortController a) (history a) (log a ++ [e]).

(** [this.#abortController.abort()] *)
Definition abort (a : PageAgent) : PageAgent :=
  set_abortController (mkController (controller_id (abortController a)) true) a.

(** [this.#abortController = new AbortController()] *)
Definition fresh_abortController (a : PageAgent) : PageAgent :=
  set_abortController (mkController (S (controller_id (abortController a))) false) a.

(** [dispose(reason)] *)
Definition dispose (reason : option string) (a : PageAgent) : PageAgent :=
  emit (Hook_onDispose reason) (abort (set_history [] (set_disposed true a))).

(** ** The world *)

(** What the outside does to the agent while the loop is suspended. *)
Inductive ext_event : Type :=
  | SetPaused (b : bool)                (* agent.paused = b *)
  | Dispose (reason : option string).   (* agent.dispose(reason) *)

Definition happen (ev : ext_event) (a : PageAgent) : PageAgent :=
  match ev with
  | SetPaused b => set_paused b a
  | Dispose reason => dispose reason a
  end.

Definition happen_all (evs : list ext_event) (a : PageAgent) : PageAgent :=
  foldl (fun a ev => happen ev a) a evs.

(** How an awaited call comes back. *)
Inductive reply (A : Type) : Type :=
  | returns (a : A)
  | throws (description : string).
Arguments returns {A} a.
Arguments throws {A} description.

(** One await: what happens meanwhile, and how the call comes back. *)
Record await (A : Type) : Type := mkAwait {
  meanwhile : list ext_event;
  comes_back : reply A;
}.
Arguments mkAwait {A} meanwhile comes_back.
Arguments meanwhile {A} _.
Arguments comes_back {A} _.

(** The rechecks of one pause wait: what happens before each of them. *)
Definition polls : Type := list (list ext_event).

(** One turn of the loop. *)
Record step_world : Type := mkStep {
  before_step : await unit;                       (* onBeforeStep *)
  pause_before_decision : polls;                  (* waitUntil in [execute] *)
  decision : await (MacroToolInput * Usage);      (* the model's decoded output *)
  pause_before_tool : polls;                      (* waitUntil in the macro tool *)
  tool_run : Tool -> jsval -> await (string * float);
                          (* the result, and [Date.now() - startTime] in ms *)
  after_step : await unit;                        (* onAfterStep *)
}.

(** One task. *)
Record task_world : Type := mkWorld {
  fresh_uid : string;                 (* uid() *)
  before_task : await unit;           (* onBeforeTask *)
  steps : list step_world;
  after_task : await unit;            (* onAfterTask, called inside [try] *)
  after_task_in_catch : await unit;   (* onAfterTask, called inside [catch] *)
}.

(** ** The monad of the methods *)

(** A method changes the agent and returns, throws, or is still suspended
    when the world ends. *)
Inductive res (A : Type) : Type :=
  | Ok (a : A)
  | Throw (e : error)
  | Block.
Arguments Ok {A} a.
Arguments Throw {A} e.
Arguments Block {A}.

Definition M (A : Type) : Type := PageAgent -> PageAgent * res A.

#[local] Instance M_ret : MRet M := fun A a st => (st, Ok a).
#[local] Instance M_bind : MBind M := fun A B k m st =>
  match m st with
  | (st', Ok a) => k a st'
  | (st', Throw e) => (st', Throw e)
  | (st', Block) => (st', Block)
  end.

Definition throw {A} (e : error) : M A := fun st => (st, Throw e).
Definition gets {A} (f : PageAgent -> A) : M A := fun st => (st, Ok (f st)).
Definition modify (f : PageAgent -> PageAgent) : M unit := fun st => (f st, Ok tt).

(** [try { body } catch (error) { handler }] *)
Definition try_catch {A} (body : M A) (handler : error -> M A) : M A := fun st =>
  match body st with
  | (st', Throw e) => handler e st'
  | r => r
  end.

(** [await call]: the world moves, then the call comes back. *)
Definition awaiting {A} (raise : string -> error) (w : await A) : M A := fun st =>
  let st' := happen_all (meanwhile w) st in
  match comes_back w with
  | returns a => (st', Ok a)
  | throws d => (st', Throw (raise d))
  end.

(** [await hook.call(this, ...)] *)
Definition hook (call : event) (w : await unit) : M unit :=
  modify (emit call);; awaiting HookError w.

(** Modelled from the spec: [waitUntil] of [utils] is not in src.  While the
    check fails the caller stays blocked and the check is made again after a
    bounded interval; the call returns as soon as a check holds.  The world
    says what happens before each recheck; when it has no recheck left the
    caller is still blocked. *)
Fixpoint waitUntil (check : PageAgent -> bool) (w : polls) : M unit := fun st =>
  if check st then (st, Ok tt)
  else match w with
       | [] => (st, Block)
       | evs :: w' => waitUntil check w' (happen_all evs st)
       end.

(** The two lines that open both [execute]'s loop body and the macro tool:
    [if (this.#abortController.signal.aborted) throw new Error('AbortError')]
    then [await waitUntil(() => !this.paused)]. *)
Definition checkpoint (w : polls) : M unit :=
  a ← gets (fun st => aborted (abortController st));
  if a : bool then throw AbortError
  else waitUntil (fun st => negb (paused st)) w.

(** [#onDone(text, success)] *)
Definition onDone (text success : jsval) : M unit :=
  modify (emit (Done_notified text success));;
  modify abort.

Definition nl : string := String (ascii_of_nat 10) "".

(** [toolInput.seconds]: the engine raises a [TypeError] when [toolInput]
    is [undefined] or [null]; a primitive has no such property, and an object
    has the one it owns, if any. *)
Definition member_seconds `{!Runtime} (toolInput : jsval) : M jsval :=
  match toolInput with
  | JUndefined | JNull => throw (TypeError (cannot_read toolInput "seconds"))
  | JObj o => mret (prop o "seconds")
  | _ => mret JUndefined
  end.

(** [ToNumber(v)] for a primitive [v]; an object is turned into a primitive
    before it is converted, which [add_number] does. *)
Definition ToNumber `{!Runtime} (v : jsval) : float :=
  match v with
  | JUndefined => nan
  | JNull => zero
  | JBool b => if b then one else zero
  | JNum x => x
  | JStr s => StringToNumber s
  | JObj _ => nan
  end.

(** [v + y] for a number [y].  The primitive value of a plain object is the
    string "[object Object]" that [Object.prototype.toString] returns,
    unless a property of its own hides that method: an own property is no
    function, and the engine raises a [TypeError].  A string is concatenated
    with the string of [y]; anything else is added as a number. *)
Definition add_number `{!Runtime} (v : jsval) (y : float) : M jsval :=
  match v with
  | JObj o =>
      if bool_decide ("toString" ∈ Object_keys o) then throw (TypeError cannot_convert)
      else mret (JStr ("[object Object]" ++ Number_toString y))
  | JStr s => mret (JStr (s ++ Number_toString y))
  | _ => mret (JNum (ToNumber v + y)%float)
  end.

(** [Math.round(toolInput.seconds + duration / 1000)], [duration] in ms. *)
Definition wait_increment `{!Runtime} (toolInput : jsval) (duration : float)
    : M float :=
  requested ← member_seconds toolInput;
  sum ← add_number requested (duration / 1000)%float;
  mret (Math_round (ToNumber sum)).

(** The wait accounting of the macro tool: the new output of the tool. *)
Definition account_wait `{!Runtime} (toolName : option string) (toolInput : jsval)
    (result : string) (duration : float) : M string :=
  if decide (toolName = Some "wait") then
    increment ← wait_increment toolInput duration;
    modify (fun st => set_totalWaitTime (totalWaitTime st + increment)%float st);;
    total ← gets totalWaitTime;
    let result := result ++ nl ++ "<sys> You have waited "
                    ++ Number_toString total ++ " seconds accumulatively." in
    let result := if ge3 total
                  then result ++ nl
                         ++ "Do NOT wait any longer unless you have a good reason." ++ nl
                  else result in
    mret (result ++ "</sys>")
  else
    modify (set_totalWaitTime 0%float);;
    mret result.

(** [execute] of the tool [#packMacroTool] returns; [tools] is the registry
    the closure has captured.  What happens during the short delay that ends
    it is counted with the run of the tool. *)
Definition MacroTool_execute `{!Runtime} (tools : gmap string Tool) (w : step_world)
    (input : MacroToolInput) : M MacroToolResult :=
  checkpoint (pause_before_tool w);;
  let action := action input in
  let toolName := head (Object_keys action) in
  let toolInput := index action toolName in
  match toolName ≫= (fun n => tools !! n) with
  | None => throw (ToolNotFound toolName)
  | Some tool =>
      modify (emit (Tool_executing (default "" toolName) toolInput));;
      r ← awaiting ToolError (tool_run w tool toolInput);
      result ← account_wait toolName toolInput r.1 r.2;
      mret {| input := input; output := result |}
  end.

(** [#packMacroTool()]: the composed schema and the executor, both over the
    registry as it is when the tool is packed. *)
Definition packMacroTool `{!Runtime} (w : step_world)
    : M (ZodType * (MacroToolInput -> M MacroToolResult)) :=
  tools ← gets tools;
  mret (macroToolSchema tools, MacroTool_execute tools w).

(** Modelled from the spec: [LLM.invoke] of [llms] is not in src.  The model
    client decodes the model's output against the schema it is given and
    fails with a decode error when it does not conform; it runs the tool it
    is given on the decoded input and returns that result with the usage;
    what the tool throws comes out of the call. *)
Definition invoke (w : step_world) (schema : ZodType)
    (AgentOutput : MacroToolInput -> M MacroToolResult)
    : M (MacroToolResult * Usage) :=
  modify (emit (LLM_invoked schema));;
  d ← awaiting LLMError (decision w);
  toolResult ← AgentOutput d.1;
  mret (toolResult, d.2).

(** The body of the [while (true)] loop up to [onAfterStep]. *)
Definition step_body `{!Runtime} (step : nat) (w : step_world) : M Action :=
  hook (Hook_onBeforeStep step) (before_step w);;
  checkpoint (pause_before_decision w);;
  AgentOutput ← packMacroTool w;
  result ← invoke w AgentOutput.1 AgentOutput.2;
  let macroResult := result.1 in
  let brain := {| evaluation_previous_goal :=
                    or_empty (in_evaluation_previous_goal (input macroResult));
                  memory := or_empty (in_memory (input macroResult));
                  next_goal := or_empty (in_next_goal (input macroResult)) |} in
  let actionName := head (Object_keys (action (input macroResult))) in
  let action := {| name := actionName;
                   action_input := index (action (input macroResult)) actionName;
                   action_output := output macroResult |} in
  modify (fun st => set_history (history st ++ [mkHistory brain action result.2]) st);;
  h ← gets history;
  hook (Hook_onAfterStep step h) (after_step w);;
  mret action.

Section Execute.

Context `{!Runtime}.

(** [MAX_STEPS] of [config/constants], which is not in src. *)
Variable MAX_STEPS : nat.

Definition step_limit_message : string := "Step count exceeded maximum limit".

(** [return result] after [#onDone] and [onAfterTask]. *)
Definition finish (text success : jsval) (after : await unit) : M ExecutionResult :=
  onDone text success;;
  h ← gets history;
  let result := {| success := success; data := text; result_history := h |} in
  hook (Hook_onAfterTask result) after;;
  mret result.

(** The [while (true)] loop, one turn per step of the world. *)
Fixpoint loop (step : nat) (ws : list step_world) (after : await unit)
    : M ExecutionResult :=
  match ws with
  | [] => fun st => (st, Block)
  | w :: ws' =>
      action ← step_body step w;
      let step := S step in
      if decide (MAX_STEPS < step)%nat then
        finish (JStr step_limit_message) (JBool false) after
      else if decide (name action = Some "done") then
        let success := nullish (opt_chain (action_input action) "success") (JBool false) in
        let text := js_or (opt_chain (action_input action) "text")
                          (JStr "no text provided") in
        finish text success after
      else loop step ws' after
  end.

(** [execute(task)] *)
Definition execute (task : string) (w : task_world) : M ExecutionResult :=
  if decide (task = "") then throw TaskRequired
  else
    modify (set_task task (fresh_uid w));;
    hook Hook_onBeforeTask (before_task w);;
    modify abort;;
    modify fresh_abortController;;
    modify (set_history []);;
    try_catch (loop 0 (steps w) (after_task w))
      (fun error =>
         finish (JStr (String_ error)) (JBool false) (after_task_in_catch w)).

End Execute.

(** ** Notions the statements use *)

(** The agent as the loop of [execute] finds it: the task is recorded, the
    before-task hook has been called and has returned, the previous
    controller is aborted and replaced, the history is empty. *)
Definition enter (task : string) (w : task_world) (st : PageAgent) : PageAgent :=
  set_history []
    (fresh_abortController
       (abort (happen_all (meanwhile (before_task w))
                 (emit Hook_onBeforeTask (set_task task (fresh_uid w) st))))).

(** The [catch] block of [execute]. *)
Definition catch_block (w : task_world) (e : error) : M ExecutionResult :=
  finish (JStr (String_ e)) (JBool false) (after_task_in_catch w).

(** Consecutive turns of the loop body, none of which ends the task. *)
Fixpoint run_steps `{!Runtime} (step : nat) (ws : list step_world)
    : M (list Action) :=
  match ws with
  | [] => mret []
  | w :: ws' =>
      a ← step_body step w;
      l ← run_steps (S step) ws';
      mret (a :: l)
  end.



(** How often the done notification was made. *)
Definition is_done (e : event) : bool :=
  match e with Done_notified _ _ => true | _ => false end.

Definition done_count (l : list event) : nat := length (filter is_done l).

(** A method keeps a relation between the agent before and after it. *)
Definition preserved (R : relation PageAgent) {A} (m : M A) : Prop :=
  forall st, R st (m st).1.

(** What no turn of the loop body changes: the registry, which controller is
    current, and the number of done notifications. *)
Definition same_task (st st' : PageAgent) : Prop :=
  tools st' = tools st
  /\ controller_id (abortController st') = controller_id (abortController st)
  /\ done_count (log st') = done_count (log st).

(** What everything but the push of a step record keeps: the history does
    not grow. *)
Definition no_longer (st st' : PageAgent) : Prop :=
  (length (history st') <= length (history st))%nat.

(** What only the wait accounting changes. *)
Definition same_wait (st st' : PageAgent) : Prop :=
  totalWaitTime st' = totalWaitTime st.

(** ** Worlds for the examples *)

Definition a_tool (n : nat) : Tool := mkTool "" ZAny n.

Definition builtin : gmap string Tool :=
  list_to_map [("click", a_tool 0); ("wait", a_tool 1);
               ("done", a_tool 2); ("ask_user", a_tool 3)].

Definition agent0 : PageAgent := new_PageAgent builtin (mkConfig None).

Definition no_usage : Usage := mkUsage 0 0 0 None None.

(** An await during which nothing happens and that returns. *)
Definition calm {A} (a : A) : await A := mkAwait [] (returns a).

(** A turn in which the model selects one tool and everything returns. *)
Definition selects (toolName : string) (toolInput : jsval)
    (result : string) (duration : float) : step_world :=
  {| before_step := calm tt;
     pause_before_decision := [];
     decision := calm (mkInput None None None [(toolName, toolInput)], no_usage);
     pause_before_tool := [];
     tool_run := fun _ _ => calm (result, duration);
     after_step := calm tt |}.

Arguments selects toolName toolInput result duration%_float.

(** A turn in which the model client rejects. *)
Definition rejects (d : string) : step_world :=
  {| before_step := calm tt;
     pause_before_decision := [];
     decision := mkAwait [] (throws d);
     pause_before_tool := [];
     tool_run := fun _ _ => calm ("", 0%float);
     after_step := calm tt |}.

(** A turn in which the selected tool throws. *)
Definition tool_fails (toolName : string) (d : string) : step_world :=
  {| before_step := calm tt;
     pause_before_decision := [];
     decision := calm (mkInput None None None [(toolName, JNull)], no_usage);
     pause_before_tool := [];
     tool_run := fun _ _ => mkAwait [] (throws d);
     after_step := calm tt |}.


(** A task whose hooks all return. *)
Definition world_of (ws : list step_world) : task_world :=
  mkWorld "uid" (calm tt) ws (calm tt) (calm tt).

Definition seconds_input (x : float) : jsval := JObj [("seconds", JNum x)].

(** The integer a double is, if it is one. *)
Definition integer_of (x : float) : option Z :=
  match Prim2SF x with
  | S754_zero _ => Some 0
  | S754_finite s m e =>
      let sm := if s then Z.neg m else Z.pos m in
      if (0 <=? e)%Z then Some (sm * 2 ^ e)
      else if (sm mod 2 ^ (- e) =? 0)%Z then Some (sm / 2 ^ (- e))
      else None
  | _ => None
  end.

(** The engine of the examples.  It words its errors as V8 does.  It
    prints an integer below 10^21 in decimal, which is what
    [Number::toString] gives for it; the examples print no other number and
    convert no string to a number, and for these the engine of the examples
    answers [NaN]. *)
Definition example_engine : Runtime :=
  {| Number_toString x := match integer_of x with
                          | Some z => if (Z.abs z <? 10 ^ 21)%Z then pretty z else "NaN"
                          | None => "NaN"
                          end;
     StringToNumber _ := nan;
     cannot_read v k :=
       "Cannot read properties of "
         ++ match v with JNull => "null" | _ => "undefined" end
         ++ " (reading '" ++ k ++ "')";
     cannot_convert := "Cannot convert object to primitive value" |}.

(** ** Notions the further properties use *)




(** What everything but a push, a reset and [dispose] keeps. *)
Definition same_history (st st' : PageAgent) : Prop := history st' = history st.

(** Two agents that differ at most in their [disposed] flag, and a method
    that cannot tell them apart. *)
Definition but_disposed (st1 st2 : PageAgent) : Prop :=
  set_disposed false st1 = set_disposed false st2.

Definition respects {A} (m : M A) : Prop :=
  forall s1 s2, but_disposed s1 s2 ->
    but_disposed (m s1).1 (m s2).1 /\ (m s1).2 = (m s2).2.

(** How often the model client was called. *)
Definition is_llm (e : event) : bool :=
  match e with LLM_invoked _ => true | _ => false end.

Definition llm_count (l : list event) : nat := length (filter is_llm l).

(** What no external event changes: the number of model calls so far. *)
Definition same_llm (st st' : PageAgent) : Prop :=
  llm_count (log st') = llm_count (log st).

(** What no external event undoes: an aborted signal. *)
Definition still_aborted (st st' : PageAgent) : Prop :=
  aborted (abortController st) = true -> aborted (abortController st') = true.

(** Nothing clears the pause flag during these rechecks. *)
Definition stays_paused (w : polls) : Prop :=
  Forall (Forall (fun ev => ev <> SetPaused false)) w.

(** How often a tool was run. *)
Definition is_tool (e : event) : bool :=
  match e with Tool_executing _ _ => true | _ => false end.

Definition tool_count (l : list event) : nat := length (filter is_tool l).

(** What everything keeps but the macro tool once it has run a tool: as long
    as no tool has been run, the wait accumulator is what it was. *)
Definition wait_kept (st st' : PageAgent) : Prop :=
  (tool_count (log st) <= tool_count (log st'))%nat
  /\ (tool_count (log st') = tool_count (log st) ->
      totalWaitTime st' = totalWaitTime st).


(** The exact value of a finite double. *)
Definition exact (x : float) : option Q :=
  match Prim2SF x with
  | S754_zero _ => Some 0%Q
  | S754_finite s m e =>
      let sm := if s then Z.neg m else Z.pos m in
      Some (if (0 <=? e)%Z then inject_Z (sm * 2 ^ e)
            else (sm # Z.to_pos (2 ^ (- e))))
  | _ => None
  end.


(** * The model configuration: [parseLLMConfig] of [config] *)

Record LLMConfig : Type := mkLLMConfig {
  baseURL : option string;
  apiKey : option string;
  model : option string;
  temperature : option Q;
  maxTokens : option Z;
  maxRetries : option Z;
}.

(** [Required<LLMConfig>] *)
Record RequiredLLMConfig : Type := mkRequiredLLMConfig {
  required_baseURL : string;
  required_apiKey : string;
  required_model : string;
  required_temperature : Q;
  required_maxTokens : Z;
  required_maxRetries : Z;
}.

(** A [Required<LLMConfig>] used where an [LLMConfig] is expected. *)
Definition as_LLMConfig (c : RequiredLLMConfig) : LLMConfig :=
  {| baseURL := Some (required_baseURL c);
     apiKey := Some (required_apiKey c);
     model := Some (required_model c);
     temperature := Some (required_temperature c);
     maxTokens := Some (required_maxTokens c);
     maxRetries := Some (required_maxRetries c) |}.

Section LLMDefaults.

(** The constants of [config/constants], which is not in src. *)
Variable DEFAULT_BASE_URL DEFAULT_API_KEY DEFAULT_MODEL_NAME : string.
Variable DEFAULT_TEMPERATURE : Q.
Variable DEFAULT_MAX_TOKENS LLM_MAX_RETRIES : Z.

(** [parseLLMConfig(config)]: every field is [config.field ?? DEFAULT]. *)
Definition parseLLMConfig (config : LLMConfig) : RequiredLLMConfig :=
  {| required_baseURL := default DEFAULT_BASE_URL (baseURL config);
     required_apiKey := default DEFAULT_API_KEY (apiKey config);
     required_model := default DEFAULT_MODEL_NAME (model config);
     required_temperature := default DEFAULT_TEMPERATURE (temperature config);
     required_maxTokens := default DEFAULT_MAX_TOKENS (maxTokens config);
     required_maxRetries := default LLM_MAX_RETRIES (maxRetries config) |}.

End LLMDefaults.

(** * The navigation detector: [utils/NavigationDetector] *)

Module NavigationDetector.

Inductive NavigationType : Type := spa | mpa | new_window | close_window.

#[global] Instance NavigationType_eq_dec : EqDecision NavigationType.
Proof. solve_decision. Defined.

Record NavigationEvent : Type := mkEvent {
  type : NavigationType;
  from : string;
  to : string;
  method : string;
  timestamp : Z;
}.

(** ** The document *)

(** What the detector reads of an element: its local name, which a type
    selector is matched against; its [tagName], which for an HTML element of
    an HTML document is the local name in upper case and for any other
    element (in an XML document, or of the SVG or MathML namespace) the
    qualified name as it is written; its attributes and, for a form, its
    [action] property. *)
Record Node : Type := mkNode {
  localName : string;
  tagName : string;
  attributes : gmap string string;
  action : string;
}.

(** An element with its ancestors, the parent first. *)
Definition Element : Type := Node * list Node.

(** [element.getAttribute(name)] *)
Definition getAttribute (element : Element) (name : string) : option string :=
  attributes element.1 !! name.

(** [element.closest(selectors)] for a list of type selectors, each in
    lower case as the code writes them: the element itself or its nearest
    ancestor whose local name is one of them. *)
Fixpoint closest_from (selectors : list string) (n : Node) (ancestors : list Node)
    : option Element :=
  if bool_decide (localName n ∈ selectors) then Some (n, ancestors)
  else match ancestors with
       | [] => None
       | parent :: ancestors' => closest_from selectors parent ancestors'
       end.

Definition closest (selectors : list string) (element : Element) : option Element :=
  closest_from selectors element.1 element.2.

(** An HTML element of an HTML document, by its local name: the tag name is
    the local name in ASCII upper case. *)
Definition upper_ascii (c : ascii) : ascii :=
  if (97 <=? nat_of_ascii c)%nat && (nat_of_ascii c <=? 122)%nat
  then ascii_of_nat (nat_of_ascii c - 32) else c.

Fixpoint upper (s : string) : string :=
  match s with
  | EmptyString => EmptyString
  | String c s' => String (upper_ascii c) (upper s')
  end.

Definition html (name : string) (attrs : gmap string string) (act : string) : Node :=
  mkNode name (upper name) attrs act.

(** What an engine reports when a call of [predictNavigation] does not end:
    the stack overflows (the text is V8's). *)
Definition endless_recursion : string := "RangeError: Maximum call stack size exceeded".

(** The [method] texts of a predicted click; [quote] is the double quote. *)
Definition quote : string := String (ascii_of_nat 34) "".
Definition click_a : string := "click <a>".
Definition click_a_blank : string :=
  "click <a target=" ++ quote ++ "_blank" ++ quote ++ ">".
Definition submit_form : string := "submit <form>".
Definition submit_form_blank : string :=
  "submit <form target=" ++ quote ++ "_blank" ++ quote ++ ">".

Section Browser.

(** [new URL(url, base).href], [None] when the constructor throws. *)
Variable URL_href : string -> string -> option string.

(** [resolveURL(url)], with [location.href] as [href]. *)
Definition resolveURL (href url : string) : string :=
  if bool_decide (url = "") then href
  else match URL_href url href with
       | Some resolved => resolved
       | None => url
       end.

(** [predictNavigation(element)], with [location.href] as [href] and
    [Date.now()] as [now].  The function calls itself on the enclosing form;
    [fuel] bounds the depth of the calls and [None] is a run that needs
    more. *)
Fixpoint predictNavigation (fuel : nat) (href : string) (now : Z)
    (element : option Element) : option (option NavigationEvent) :=
  match fuel with
  | 0%nat => None
  | S fuel =>
      match element with
      | None => Some None
      | Some element =>
          if decide (tagName element.1 = "A") then
            match getAttribute element "href" with
            | None => Some None
            | Some link =>
                if bool_decide (link = "") || bool_decide (link = "#") then Some None
                else if String.prefix "javascript:" link
                        || String.prefix "mailto:" link
                        || String.prefix "tel:" link then Some None
                else if decide (getAttribute element "target" = Some "_blank") then
                  Some (Some {| type := new_window;
                                from := href;
                                to := resolveURL href link;
                                method := click_a_blank;
                                timestamp := now |})
                else
                  Some (Some {| type := mpa;
                                from := href;
                                to := resolveURL href link;
                                method := click_a;
                                timestamp := now |})
            end
          else if decide (tagName element.1 = "FORM") then
            let target := getAttribute element "target" in
            let destination :=
              if bool_decide (action element.1 = "") then href
              else action element.1 in
            if decide (target = Some "_blank") then
              Some (Some {| type := new_window;
                            from := href;
                            to := destination;
                            method := submit_form_blank;
                            timestamp := now |})
            else
              Some (Some {| type := mpa;
                            from := href;
                            to := destination;
                            method := submit_form;
                            timestamp := now |})
          else
            match closest ["form"] element with
            | Some form => predictNavigation fuel href now (Some form)
            | None => Some None
            end
      end
  end.

(** ** The detector *)

(** The fields of the class that its handlers read or write; [callback] says
    whether a callback was given, and [received] is what the callback has
    been called with so far. *)
Record Detector : Type := mkDetector {
  enabled : bool;
  callback : bool;
  currentUrl : string;
  lastClickPrediction : option NavigationEvent;
  received : list NavigationEvent;
}.

Definition set_currentUrl (url : string) (d : Detector) : Detector :=
  mkDetector (enabled d) (callback d) url (lastClickPrediction d) (received d).
Definition set_lastClickPrediction (p : option NavigationEvent) (d : Detector)
    : Detector :=
  mkDetector (enabled d) (callback d) (currentUrl d) p (received d).
Definition receive (e : NavigationEvent) (d : Detector) : Detector :=
  mkDetector (enabled d) (callback d) (currentUrl d) (lastClickPrediction d)
             (received d ++ [e]).

(** A call of the callback: the event is handed over, and the callback
    returns or throws. *)
Definition call_callback (e : NavigationEvent) (comes : reply unit) (d : Detector)
    : Detector * option string :=
  (receive e d, match comes with returns _ => None | throws thrown => Some thrown end).

(** [emitNavigation(type, { method, to })] *)
Definition emitNavigation (t : NavigationType) (how destination : string)
    (now : Z) (comes : reply unit) (d : Detector) : Detector * option string :=
  if negb (callback d) then (d, None)
  else
    let event := {| type := t; from := currentUrl d; to := destination;
                    method := how; timestamp := now |} in
    match call_callback event comes d with
    | (d', Some thrown) => (d', Some thrown)
    | (d', None) =>
        (if decide (t = spa) then set_currentUrl destination d' else d', None)
    end.

(** What the page does that the detector hears of: the calls of the wrapped
    functions (their arguments after [toString]), the events its listeners
    are registered for, and the timer a click starts. *)
Inductive occurrence : Type :=
  | PushState (url : option string)       (* history.pushState(_, _, url) *)
  | ReplaceState (url : option string)    (* history.replaceState(_, _, url) *)
  | SetLocationHref (value : string)      (* location.href = value *)
  | LocationAssign (url : string)         (* location.assign(url) *)
  | LocationReplace (url : string)        (* location.replace(url) *)
  | WindowOpen (url : option string)      (* window.open(url, ...) *)
  | Popstate                              (* the popstate event *)
  | BeforeUnload                          (* the beforeunload event *)
  | Click (target : option Element)       (* a click event on [target] *)
  | PredictionTimeout.                    (* the 100 ms timer of a click *)

(** The wrapper or listener that answers an occurrence, up to the call of
    the function it wraps.  [href] is [location.href] and [now] is
    [Date.now()] when it runs; the detector is the registered instance.  The
    second component is what the wrapper or listener throws, if anything. *)
Definition handle (href : string) (now : Z) (comes : reply unit)
    (o : occurrence) (d : Detector) : Detector * option string :=
  match o with
  | PushState url =>
      if enabled d
      then emitNavigation spa "pushState" (resolveURL href (default "" url)) now comes d
      else (d, None)
  | ReplaceState url =>
      if enabled d
      then emitNavigation spa "replaceState" (resolveURL href (default "" url))
             now comes d
      else (d, None)
  | SetLocationHref value =>
      if enabled d && negb (bool_decide (value = currentUrl d))
      then emitNavigation mpa "location.href" (resolveURL href value) now comes d
      else (d, None)
  | LocationAssign url =>
      if enabled d
      then emitNavigation mpa "location.assign" (resolveURL href url) now comes d
      else (d, None)
  | LocationReplace url =>
      if enabled d
      then emitNavigation mpa "location.replace" (resolveURL href url) now comes d
      else (d, None)
  | WindowOpen url =>
      if enabled d
      then emitNavigation new_window "window.open"
             (resolveURL href (default "" url)) now comes d
      else (d, None)
  | Popstate =>
      if enabled d && negb (bool_decide (href = currentUrl d))
      then emitNavigation spa "popstate" href now comes d
      else (d, None)
  | BeforeUnload =>
      if negb (enabled d) then (d, None)
      else match lastClickPrediction d with
           | Some prediction =>
               if callback d then
                 match call_callback prediction comes d with
                 | (d', Some thrown) => (d', Some thrown)
                 | (d', None) => (set_lastClickPrediction None d', None)
                 end
               else (set_lastClickPrediction None d, None)
           | None => emitNavigation close_window "beforeunload" "unknown" now comes d
           end
  | Click target =>
      if negb (enabled d) then (d, None)
      else match target with
           | None => (d, None)
           | Some target =>
               match closest ["a"; "button"; "form"] target with
               | None => (d, None)
               | Some clickable =>
                   (* two levels of calls decide every run that ends *)
                   match predictNavigation 2 href now (Some clickable) with
                   | Some (Some prediction) =>
                       (set_lastClickPrediction (Some prediction) d, None)
                   | Some None => (d, None)
                   | None => (d, Some endless_recursion)
                   end
               end
           end
  | PredictionTimeout => (set_lastClickPrediction None d, None)
  end.

(** What happens, one occurrence after the other, the callback returning
    each time. *)
Record moment : Type := mkMoment {
  moment_href : string;
  moment_now : Z;
  what : occurrence;
}.

Definition run (moments : list moment) (d : Detector) : Detector :=
  foldl (fun d m => (handle (moment_href m) (moment_now m) (returns tt) (what m) d).1)
        d moments.

(** The URL the detector holds after a list of events, from [url]: the
    destination of the last [spa] one. *)
Definition url_after (url : string) (events : list NavigationEvent) : string :=
  foldl (fun url e => if decide (type e = spa) then to e else url) url events.

(** Each event starts where the events before it have led. *)
Fixpoint chained (url : string) (events : list NavigationEvent) : Prop :=
  match events with
  | [] => True
  | e :: events' => from e = url /\ chained (url_after url [e]) events'
  end.

Definition is_click (o : occurrence) : bool :=
  match o with Click _ => true | _ => false end.

(** The elements that the selector [form] matches, in an element and its
    ancestors, are HTML forms of an HTML document. *)
Definition html_forms (element : Element) : Prop :=
  Forall (fun n => localName n = "form" -> tagName n = "FORM") (element.1 :: element.2).

(** [predictNavigation] decides an element on the spot when its tag name is
    that of a link or of a form; a call ends when the element is decided on
    the spot, or no form encloses it, or the enclosing form is decided on the
    spot. *)
Definition decided (element : Element) : Prop :=
  tagName element.1 = "A" \/ tagName element.1 = "FORM".

Definition ends (element : Element) : Prop :=
  decided element
  \/ match closest ["form"] element with
     | Some form => decided form
     | None => True
     end.

End Browser.

End NavigationDetector.

(** * Properties *)

Section Agent.

Context `{!Runtime}.

(** ** The monad *)

Lemma bind_Ok {A B} (m : M A) (k : A -> M B) st st' a :
  m st = (st', Ok a) -> (m ≫= k) st = k a st'.
Proof. unfold mbind, M_bind. by intros ->. Qed.

Lemma bind_Throw {A B} (m : M A) (k : A -> M B) st st' e :
  m st = (st', Throw e) -> (m ≫= k) st = (st', Throw e).
Proof. unfold mbind, M_bind. by intros ->. Qed.

Lemma bind_Block {A B} (m : M A) (k : A -> M B) st st' :
  m st = (st', Block) -> (m ≫= k) st = (st', Block).
Proof. unfold mbind, M_bind. by intros ->. Qed.

(** The conversions of the wait accounting read nothing of the agent and
    leave it as it is. *)
Lemma wait_increment_const (toolInput : jsval) (duration : float) :
  exists r, forall st, wait_increment toolInput duration st = (st, r).
Proof.
  unfold wait_increment, member_seconds, add_number, mbind, M_bind, mret, M_ret, throw.
  destruct toolInput as [| | | | |o]; try (by eexists).
  destruct (prop o "seconds") as [| | | | |o']; try (by eexists).
  case_bool_decide; by eexists.
Qed.

(** What the wait accounting does to the agent: nothing, or it writes the
    accumulator. *)
Lemma account_wait_state (toolName : option string) (toolInput : jsval)
    (result : string) (duration : float) (st : PageAgent) :
  (account_wait toolName toolInput result duration st).1 = st
  \/ exists n, (account_wait toolName toolInput result duration st).1
               = set_totalWaitTime n st.
Proof.
  unfold account_wait. case_decide.
  - destruct (wait_increment_const toolInput duration) as [r Hr].
    unfold mbind, M_bind. rewrite !Hr.
    destruct r as [increment| |]; [|by left..]. right. eexists. reflexivity.
  - right. eexists. reflexivity.
Qed.

Section Preserved.
Context (R : relation PageAgent) `{!PreOrder R}.

Lemma preserved_ret {A} (a : A) : preserved R (mret a).
Proof. intros st. cbn. reflexivity. Qed.

Lemma preserved_throw {A} (e : error) : preserved R (@throw A e).
Proof. intros st. cbn. reflexivity. Qed.

Lemma preserved_gets {A} (f : PageAgent -> A) : preserved R (gets f).
Proof. intros st. cbn. reflexivity. Qed.

Lemma preserved_modify (f : PageAgent -> PageAgent) :
  (forall st, R st (f st)) -> preserved R (modify f).
Proof. intros Hf st. apply Hf. Qed.

Lemma preserved_bind {A B} (m : M A) (k : A -> M B) :
  preserved R m -> (forall a, preserved R (k a)) -> preserved R (m ≫= k).
Proof.
  intros Hm Hk st. unfold mbind, M_bind. specialize (Hm st).
  destruct (m st) as [st' [a| |]]; cbn in *; [|done..].
  etrans; [exact Hm | apply Hk].
Qed.

Lemma preserved_try_catch {A} (body : M A) (handler : error -> M A) :
  preserved R body -> (forall e, preserved R (handler e)) ->
  preserved R (try_catch body handler).
Proof.
  intros Hm Hk st. unfold try_catch. specialize (Hm st).
  destruct (body st) as [st' [a|e|]]; cbn in *; [done| |done].
  etrans; [exact Hm | apply Hk].
Qed.

Lemma preserved_packMacroTool {B} (w : step_world)
    (k : ZodType * (MacroToolInput -> M MacroToolResult) -> M B) :
  (forall registry,
     preserved R (k (macroToolSchema registry, MacroTool_execute registry w))) ->
  preserved R (packMacroTool w ≫= k).
Proof. intros Hk st. apply (Hk (tools st) st). Qed.


Hypothesis R_happen : forall ev st, R st (happen ev st).
Hypothesis R_emit : forall e st, is_done e = false -> R st (emit e st).

Lemma R_happen_all evs st : R st (happen_all evs st).
Proof.
  revert st. induction evs as [|ev evs IH]; intros st; cbn; [reflexivity|].
  etrans; [apply R_happen | apply IH].
Qed.

Lemma preserved_awaiting {A} raise (w : await A) : preserved R (awaiting raise w).
Proof.
  intros st. unfold awaiting. destruct (comes_back w); cbn; apply R_happen_all.
Qed.

Lemma preserved_hook call w : is_done call = false -> preserved R (hook call w).
Proof.
  intros Hcall. unfold hook. apply preserved_bind.
  - apply preserved_modify. intros st. by apply R_emit.
  - intros _. apply preserved_awaiting.
Qed.

Lemma preserved_waitUntil check w : preserved R (waitUntil check w).
Proof.
  intros st. revert st. induction w as [|evs w IH]; intros st; cbn.
  - destruct (check st); reflexivity.
  - destruct (check st); cbn; [reflexivity|].
    etrans; [apply R_happen_all | apply IH].
Qed.

Lemma preserved_checkpoint w : preserved R (checkpoint w).
Proof.
  unfold checkpoint. apply preserved_bind; [apply preserved_gets|].
  intros [|]; [apply preserved_throw | apply preserved_waitUntil].
Qed.


Lemma preserved_invoke w schema AgentOutput :
  (forall decoded, preserved R (AgentOutput decoded)) ->
  preserved R (invoke w schema AgentOutput).
Proof.
  intros Htool. unfold invoke.
  apply preserved_bind; [|intros _].
  { apply preserved_modify. intros st. by apply R_emit. }
  apply preserved_bind; [apply preserved_awaiting|intros d].
  apply preserved_bind; [apply Htool|intros r].
  apply preserved_ret.
Qed.

(** A turn of the loop body keeps what its pieces keep, when the macro tool
    and the push of the step record keep it too. *)
Lemma preserved_step_body step w :
  (forall registry decoded, preserved R (MacroTool_execute registry w decoded)) ->
  (forall record st, R st (set_history (history st ++ [record]) st)) ->
  preserved R (step_body step w).
Proof.
  intros Htool Hpush. unfold step_body.
  apply preserved_bind; [by apply preserved_hook|intros _].
  apply preserved_bind; [apply preserved_checkpoint|intros _].
  apply preserved_packMacroTool. intros registry. cbn [fst snd].
  apply preserved_bind; [|intros result].
  { apply preserved_invoke. intros decoded. apply Htool. }
  apply preserved_bind; [|intros _].
  { apply preserved_modify. intros st. apply Hpush. }
  apply preserved_bind; [apply preserved_gets|intros h].
  apply preserved_bind; [by apply preserved_hook|intros _].
  apply preserved_ret.
Qed.

(** So does the way out of [execute], when the done notification and the
    abort keep it; and so does all of [execute], when the writes at its start
    keep it as well. *)
Hypothesis R_done : forall text flag st, R st (emit (Done_notified text flag) st).
Hypothesis R_abort : forall st, R st (abort st).

Lemma preserved_finish text flag after : preserved R (finish text flag after).
Proof.
  unfold finish, onDone.
  apply preserved_bind; [|intros _].
  { apply preserved_bind; [|intros _]; apply preserved_modify; intros st;
      [apply R_done|apply R_abort]. }
  apply preserved_bind; [apply preserved_gets|intros h].
  apply preserved_bind; [by apply preserved_hook|intros _].
  apply preserved_ret.
Qed.

Lemma preserved_loop MAX_STEPS after ws step :
  (forall step w, preserved R (step_body step w)) ->
  preserved R (loop MAX_STEPS step ws after).
Proof.
  intros Hbody. revert step.
  induction ws as [|w ws IH]; intros step; [intros st; cbn; reflexivity|].
  cbn [loop]. apply preserved_bind; [apply Hbody|intros a].
  repeat case_decide; [apply preserved_finish..|apply IH].
Qed.

Lemma preserved_execute MAX_STEPS task w :
  (forall step w, preserved R (step_body step w)) ->
  (forall t i st, R st (set_task t i st)) ->
  (forall st, R st (fresh_abortController st)) ->
  (forall st, R st (set_history [] st)) ->
  preserved R (execute MAX_STEPS task w).
Proof.
  intros Hbody Htask Hfresh Hreset. unfold execute.
  case_decide; [apply preserved_throw|].
  apply preserved_bind; [by apply preserved_modify|intros _].
  apply preserved_bind; [by apply preserved_hook|intros _].
  apply preserved_bind; [by apply preserved_modify|intros _].
  apply preserved_bind; [by apply preserved_modify|intros _].
  apply preserved_bind; [by apply preserved_modify|intros _].
  apply preserved_try_catch; [by apply preserved_loop|].
  intros e. apply preserved_finish.
Qed.
End Preserved.

(** ** What a turn of the loop body leaves alone *)

#[local] Instance same_task_preorder : PreOrder same_task.
Proof.
  split.
  - by intros st.
  - intros st1 st2 st3 (H1 & H2 & H3) (H4 & H5 & H6). unfold same_task.
    by rewrite H4, H5, H6.
Qed.

#[local] Instance same_wait_preorder : PreOrder same_wait.
Proof.
  split; [by intros st|]. intros st1 st2 st3 H1 H2. unfold same_wait in *. congruence.
Qed.

Lemma done_count_app (l : list event) (e : event) :
  done_count (l ++ [e]) = (done_count l + if is_done e then 1 else 0)%nat.
Proof.
  unfold done_count. rewrite filter_app, length_app. f_equal.
  cbn. unfold filter; cbn. by destruct (is_done e).
Qed.


Lemma same_task_happen (ev : ext_event) (st : PageAgent) : same_task st (happen ev st).
Proof.
  destruct ev as [b|reason]; [done|].
  split; [done|]. split; [done|].
  change (done_count (log st ++ [Hook_onDispose reason]) = done_count (log st)).
  rewrite done_count_app. cbn. lia.
Qed.

Lemma same_wait_emit (e : event) (st : PageAgent) :
  is_done e = false -> same_wait st (emit e st).
Proof. done. Qed.

Lemma same_wait_happen (ev : ext_event) (st : PageAgent) : same_wait st (happen ev st).
Proof. by destruct ev. Qed.


Lemma checkpoint_same_wait w : preserved same_wait (checkpoint w).
Proof. apply preserved_checkpoint; [apply _|apply same_wait_happen]. Qed.

(** ** The registry and the composed schema *)

Lemma apply_customTools_cons (n : string) (t : option Tool)
    (entries : list (string * option Tool)) (m : gmap string Tool) :
  apply_customTools ((n, t) :: entries) m
  = apply_customTools entries
      (match t with None => delete n m | Some tool => <[n := tool]> m end).
Proof. done. Qed.

Lemma apply_customTools_absent (entries : list (string * option Tool))
    (m : gmap string Tool) (toolName : string) :
  toolName ∉ entries.*1 ->
  apply_customTools entries m !! toolName = m !! toolName.
Proof.
  revert m. induction entries as [|[n t] entries IH]; intros m Hnot; [done|].
  rewrite fmap_cons, not_elem_of_cons in Hnot. destruct Hnot as [Hne Hnot].
  rewrite apply_customTools_cons, IH by done. destruct t.
  - by rewrite lookup_insert_ne.
  - by rewrite lookup_delete_ne.
Qed.

Lemma apply_customTools_entry (entries : list (string * option Tool))
    (m : gmap string Tool) (toolName : string) (t : option Tool) :
  NoDup entries.*1 -> (toolName, t) ∈ entries ->
  apply_customTools entries m !! toolName = t.
Proof.
  revert m. induction entries as [|[n t'] entries IH]; intros m Hnd Hin.
  - by apply elem_of_nil in Hin.
  - rewrite fmap_cons in Hnd. apply NoDup_cons in Hnd as [Hfresh Hnd].
    rewrite apply_customTools_cons.
    apply elem_of_cons in Hin as [Heq|Hin]; [|by apply IH].
    injection Heq as <- <-. rewrite apply_customTools_absent by done.
    destruct t; [apply lookup_insert_eq | apply lookup_delete_eq].
Qed.

Lemma action_variants_composed (registry : gmap string Tool) :
  action_variants (macroToolSchema registry) = actionSchemas registry.
Proof. done. Qed.

Lemma schema_names_keys (registry : gmap string Tool) :
  schema_names (macroToolSchema registry) = (map_to_list registry).*1.
Proof.
  unfold schema_names. rewrite action_variants_composed. unfold actionSchemas.
  induction (map_to_list registry) as [|[n t] l IH]; [done|].
  cbn. by rewrite IH.
Qed.

Lemma schema_names_registered (registry : gmap string Tool) (toolName : string) :
  toolName ∈ schema_names (macroToolSchema registry) <-> is_Some (registry !! toolName).
Proof.
  rewrite schema_names_keys, list_elem_of_fmap. split.
  - intros [[n t] [-> Hin]]. apply elem_of_map_to_list in Hin. by exists t.
  - intros [t Ht]. exists (toolName, t). split; [done|].
    by apply elem_of_map_to_list.
Qed.

(** ** Unfolding [execute] *)

Lemma finish_eq (text success : jsval) (after : await unit) (st : PageAgent) :
  finish text success after st
  = let st1 := abort (emit (Done_notified text success) st) in
    let result := mkResult success text (history st) in
    (happen_all (meanwhile after) (emit (Hook_onAfterTask result) st1),
     match comes_back after with
     | returns _ => Ok result
     | throws d => Throw (HookError d)
     end).
Proof.
  unfold finish, onDone, hook, awaiting, mbind, M_bind, modify, gets, mret, M_ret.
  by destruct (comes_back after) as [[]|d].
Qed.

Lemma loop_cons (MAX_STEPS step : nat) (w : step_world) (ws : list step_world)
    (after : await unit) (st : PageAgent) :
  loop MAX_STEPS step (w :: ws) after st
  = match step_body step w st with
    | (st1, Ok a) =>
        if decide (MAX_STEPS < S step)%nat then
          finish (JStr step_limit_message) (JBool false) after st1
        else if decide (name a = Some "done") then
          finish (js_or (opt_chain (action_input a) "text") (JStr "no text provided"))
                 (nullish (opt_chain (action_input a) "success") (JBool false))
                 after st1
        else loop MAX_STEPS (S step) ws after st1
    | (st1, Throw e) => (st1, Throw e)
    | (st1, Block) => (st1, Block)
    end.
Proof.
  cbn [loop]. unfold mbind at 1, M_bind at 1.
  destruct (step_body step w st) as [st1 [a| |]]; [|done..].
  by repeat case_decide.
Qed.

Lemma execute_enters (MAX_STEPS : nat) (task : string) (w : task_world)
    (st : PageAgent) :
  task <> "" -> comes_back (before_task w) = returns tt ->
  execute MAX_STEPS task w st
  = try_catch (loop MAX_STEPS 0 (steps w) (after_task w)) (catch_block w)
      (enter task w st).
Proof.
  intros Htask Hhook. unfold execute. rewrite decide_False by done.
  unfold hook, awaiting, mbind, M_bind, modify. cbn. by rewrite Hhook.
Qed.

(** When the before-task hook throws, [execute] has recorded the task and
    called the hook, and nothing more. *)
Lemma execute_refused (MAX_STEPS : nat) (task : string) (w : task_world)
    (st : PageAgent) (d : string) :
  task <> "" -> comes_back (before_task w) = throws d ->
  execute MAX_STEPS task w st
  = (happen_all (meanwhile (before_task w))
       (emit Hook_onBeforeTask (set_task task (fresh_uid w) st)),
     Throw (HookError d)).
Proof.
  intros Htask Hhook. unfold execute. rewrite decide_False by done.
  unfold hook, awaiting, mbind, M_bind, modify. cbn. by rewrite Hhook.
Qed.

Lemma try_catch_eq {A} (body : M A) (handler : error -> M A) (st : PageAgent) :
  try_catch body handler st
  = match body st with
    | (st', Throw e) => handler e st'
    | (st', Ok a) => (st', Ok a)
    | (st', Block) => (st', Block)
    end.
Proof. unfold try_catch. by destruct (body st) as [st' [a|e|]]. Qed.

Lemma waitUntil_no_throw (check : PageAgent -> bool) (w : polls) (st : PageAgent)
    (e : error) :
  (waitUntil check w st).2 <> Throw e.
Proof.
  revert st. induction w as [|evs w IH]; intros st; cbn.
  - by destruct (check st).
  - destruct (check st); [done|]. apply IH.
Qed.

Lemma checkpoint_eq (w : polls) (st : PageAgent) :
  checkpoint w st
  = if aborted (abortController st) then (st, Throw AbortError)
    else waitUntil (fun s => negb (paused s)) w st.
Proof.
  unfold checkpoint, mbind, M_bind, gets. by destruct (aborted _).
Qed.

Lemma hook_eq call (w : await unit) (st : PageAgent) :
  hook call w st
  = (happen_all (meanwhile w) (emit call st),
     match comes_back w with
     | returns _ => Ok tt
     | throws d => Throw (HookError d)
     end).
Proof.
  unfold hook, awaiting, mbind, M_bind, modify. by destruct (comes_back w) as [[]|d].
Qed.


(** ** The claims about the registry and the macro tool *)

(** C8.  A [customTools] entry that maps a tool name to [null] removes the
    tool, built-in or not, from the registry of the agent that is
    constructed.  The schema that [#packMacroTool] composes has the three
    optional strings and, under [action], a union with exactly one variant
    per registered tool: the object whose single key is the tool's name and
    whose shape under that key is the tool's input schema.  So the removed
    name keys no variant; and the macro tool, given a decoded decision whose
    single action key is that name, throws the tool-not-found error once its
    checkpoint is passed. *)
Theorem null_override_removes_tool (builtin_tools : gmap string Tool)
    (entries : list (string * option Tool)) (toolName : string) :
  NoDup entries.*1 -> (toolName, None) ∈ entries ->
  let agent := new_PageAgent builtin_tools (mkConfig (Some entries)) in
  tools agent !! toolName = None
  /\ (forall w st, exists schema,
        packMacroTool w st = (st, Ok (schema, MacroTool_execute (tools st) w))
        /\ schema = ZObject [ ("evaluation_previous_goal", ZOptional ZString);
                              ("memory", ZOptional ZString);
                              ("next_goal", ZOptional ZString);
                              ("action", ZUnion (action_variants schema)) ]
        /\ (forall variant,
              variant ∈ action_variants schema
              <-> exists n tool, tools st !! n = Some tool
                                 /\ variant = ZObject [(n, inputSchema tool)])
        /\ NoDup (schema_names schema)
        /\ (forall n, n ∈ schema_names schema <-> is_Some (tools st !! n))
        /\ (tools st = tools agent -> toolName ∉ schema_names schema))
  /\ (forall st w decoded toolInput st1,
        action decoded = [(toolName, toolInput)] ->
        checkpoint (pause_before_tool w) st = (st1, Ok tt) ->
        MacroTool_execute (tools agent) w decoded st
        = (st1, Throw (ToolNotFound (Some toolName)))).
Proof.
  intros Hnd Hin agent.
  assert (Hgone : tools agent !! toolName = None)
    by (by apply apply_customTools_entry).
  split; [done|]. split.
  { intros w st. exists (macroToolSchema (tools st)).
    split; [done|]. split; [done|]. split; [|split; [|split]].
    - intros variant. rewrite action_variants_composed. unfold actionSchemas.
      rewrite list_elem_of_fmap. split.
      + intros [[n tool] [-> Hin']]. apply elem_of_map_to_list in Hin'.
        by exists n, tool.
      + intros (n & tool & Hlook & ->). exists (n, tool). split; [done|].
        by apply elem_of_map_to_list.
    - rewrite schema_names_keys. apply NoDup_fst_map_to_list.
    - apply schema_names_registered.
    - intros Hsame. rewrite schema_names_registered, Hsame, Hgone. by intros [? ?]. }
  intros st w decoded toolInput st1 Haction Hcp.
  unfold MacroTool_execute. erewrite bind_Ok by exact Hcp.
  rewrite Haction.
  change (head (Object_keys [(toolName, toolInput)])) with (Some toolName).
  cbn [mbind option_bind]. by rewrite Hgone.
Qed.




(** ** The claims about the task boundary *)

(** C9.  Called with the empty task, [execute] throws the task-input error
    and leaves the agent exactly as it was: no field is written, no hook is
    called, nothing is notified.  It is the only error of the taxonomy that
    leaves [execute]: whatever else [execute] throws was raised by a
    lifecycle hook. *)
Theorem empty_task_rejected (MAX_STEPS : nat) (w : task_world) (st : PageAgent) :
  execute MAX_STEPS "" w st = (st, Throw TaskRequired)
  /\ (forall task st' e,
        execute MAX_STEPS task w st = (st', Throw e) -> from_hook e = false ->
        task = "" /\ e = TaskRequired /\ st' = st).
Proof.
  split; [done|]. intros task st' e Hrun Hhook.
  destruct (decide (task = "")) as [->|Htask].
  { cbn in Hrun. by injection Hrun as <- <-. }
  exfalso. destruct (comes_back (before_task w)) as [[]|d] eqn:Hbefore.
  - rewrite execute_enters, try_catch_eq in Hrun by done.
    destruct (loop _ _ _ _ _) as [st1 [r|e1|]]; [done| |done].
    unfold catch_block in Hrun. rewrite finish_eq in Hrun. cbn zeta in Hrun.
    destruct (comes_back (after_task_in_catch w)); [done|].
    injection Hrun as _ <-. done.
  - rewrite (execute_refused _ _ _ _ d) in Hrun by done.
    injection Hrun as _ <-. done.
Qed.

(** ** Who writes the wait accumulator *)

#[local] Instance wait_kept_preorder : PreOrder wait_kept.
Proof.
  split.
  - intros st. by split.
  - intros st1 st2 st3 [H1 H2] [H3 H4]. split; [lia|].
    intros Heq. rewrite H4, H2; [done|lia..].
Qed.

Lemma tool_count_app (l : list event) (e : event) :
  tool_count (l ++ [e]) = (tool_count l + if is_tool e then 1 else 0)%nat.
Proof.
  unfold tool_count. rewrite filter_app, length_app. f_equal.
  cbn. unfold filter; cbn. by destruct (is_tool e).
Qed.

Lemma wait_kept_emit (e : event) (st : PageAgent) : wait_kept st (emit e st).
Proof.
  split; [|done].
  change (tool_count (log st) <= tool_count (log st ++ [e]))%nat.
  rewrite tool_count_app. lia.
Qed.

Lemma wait_kept_same (st st' : PageAgent) :
  log st' = log st -> totalWaitTime st' = totalWaitTime st -> wait_kept st st'.
Proof. intros Hlog Hwait. split; by rewrite Hlog. Qed.

Lemma wait_kept_happen (ev : ext_event) (st : PageAgent) : wait_kept st (happen ev st).
Proof.
  destruct ev as [b|reason]; [by apply wait_kept_same|].
  split; [|done].
  change (tool_count (log st) <= tool_count (log st ++ [Hook_onDispose reason]))%nat.
  rewrite tool_count_app. lia.
Qed.

(** The macro tool writes the accumulator only after it has run a tool. *)
Lemma MacroTool_execute_wait_kept registry w decoded :
  preserved wait_kept (MacroTool_execute registry w decoded).
Proof.
  intros st. unfold MacroTool_execute.
  pose proof (preserved_checkpoint wait_kept wait_kept_happen (pause_before_tool w) st)
    as Hcp.
  unfold mbind at 1, M_bind at 1.
  destruct (checkpoint _ st) as [st1 [[]| |]]; cbn [fst] in *; [|done..].
  destruct (_ ≫= _) as [tool|]; [|done].
  unfold mbind at 1, M_bind at 1, modify at 1.
  match goal with
  | |- context [(awaiting ToolError ?a ≫= _) ?s] =>
      pose proof (preserved_awaiting wait_kept wait_kept_happen ToolError a s) as Hrun;
      assert (Hran : (tool_count (log st1) < tool_count (log s))%nat)
  end.
  { cbn [log emit]. rewrite tool_count_app. cbn. lia. }
  unfold mbind at 1, M_bind at 1.
  destruct (awaiting ToolError _ _) as [st2 [r| |]]; cbn [fst] in *.
  - assert (Hmore : (tool_count (log st) < tool_count (log st2))%nat).
    { destruct Hcp as [Hcp _], Hrun as [Hrun _]. lia. }
    unfold mbind, M_bind, mret, M_ret.
    pose proof (account_wait_state (head (Object_keys (action decoded)))
                  (index (action decoded) (head (Object_keys (action decoded))))
                  r.1 r.2 st2) as Hacc.
    destruct (account_wait _ _ _ _ st2) as [st3 [result| |]]; cbn [fst] in *;
      (split; [|intros Heq]; destruct Hacc as [->|[n ->]];
       cbn [log set_totalWaitTime] in *; lia).
  - etrans; [exact Hcp|]. etrans; [|exact Hrun]. apply wait_kept_emit.
  - etrans; [exact Hcp|]. etrans; [|exact Hrun]. apply wait_kept_emit.
Qed.

Lemma step_body_wait_kept step w : preserved wait_kept (step_body step w).
Proof.
  apply preserved_step_body;
    [apply _|apply wait_kept_happen|intros; apply wait_kept_emit
    |intros; apply MacroTool_execute_wait_kept|by intros; apply wait_kept_same].
Qed.

Lemma finish_wait_kept text flag after : preserved wait_kept (finish text flag after).
Proof.
  apply preserved_finish;
    [apply _|apply wait_kept_happen|intros; apply wait_kept_emit
    |intros; apply wait_kept_emit|by intros; apply wait_kept_same].
Qed.

Lemma execute_wait_kept MAX_STEPS task w : preserved wait_kept (execute MAX_STEPS task w).
Proof.
  apply preserved_execute;
    [apply _|apply wait_kept_happen|intros; apply wait_kept_emit
    |intros; apply wait_kept_emit|by intros; apply wait_kept_same
    |apply step_body_wait_kept|by intros; apply wait_kept_same..].
Qed.

Lemma finish_same_wait text flag after : preserved same_wait (finish text flag after).
Proof.
  apply preserved_finish; [apply _|apply same_wait_happen|apply same_wait_emit|done..].
Qed.

(** C2, as the code has it.  [execute] empties the history and replaces the
    controller before its loop starts, but it does not touch the wait
    accumulator: the loop starts with the value the agent had when [execute]
    was called.  The accumulator is [0] in a new agent, and during a task
    nothing writes it but the macro tool after it has run a tool: as long as
    no tool has been run, the accumulator is what it was when [execute] was
    called, whatever the hooks and the outside do and however the task ends.
    Neither the done notification with the after-task hook, nor the [catch]
    block, nor a hook, a pause or a dispose writes it. *)
Theorem wait_accumulator_kept_at_start (MAX_STEPS : nat) (task : string)
    (w : task_world) (st : PageAgent) :
  task <> "" -> comes_back (before_task w) = returns tt ->
  execute MAX_STEPS task w st
  = try_catch (loop MAX_STEPS 0 (steps w) (after_task w)) (catch_block w)
      (enter task w st)
  /\ totalWaitTime (enter task w st) = totalWaitTime st
  /\ history (enter task w st) = []
  /\ abortController (enter task w st)
     = mkController (S (controller_id (abortController st))) false
  /\ (forall builtin_tools config,
        totalWaitTime (new_PageAgent builtin_tools config) = 0%float)
  /\ (tool_count (log (execute MAX_STEPS task w st).1) = tool_count (log st) ->
      totalWaitTime (execute MAX_STEPS task w st).1 = totalWaitTime st)
  /\ (forall text flag after s,
        totalWaitTime (finish text flag after s).1 = totalWaitTime s)
  /\ (forall e s, totalWaitTime (catch_block w e s).1 = totalWaitTime s)
  /\ (forall call a s, totalWaitTime (hook call a s).1 = totalWaitTime s)
  /\ (forall polled s, totalWaitTime (checkpoint polled s).1 = totalWaitTime s)
  /\ (forall ev s, totalWaitTime (happen ev s) = totalWaitTime s).
Proof.
  intros Htask Hhook. split; [by apply execute_enters|].
  split.
  { unfold enter. cbn.
    apply (R_happen_all same_wait same_wait_happen (meanwhile (before_task w))
             (emit Hook_onBeforeTask (set_task task (fresh_uid w) st))). }
  split; [done|]. split.
  { unfold enter. cbn. f_equal.
    pose proof (R_happen_all same_task same_task_happen (meanwhile (before_task w))
                  (emit Hook_onBeforeTask (set_task task (fresh_uid w) st))) as (_ & Hid & _).
    f_equal. exact Hid. }
  split; [done|]. split; [apply execute_wait_kept|].
  split; [intros; apply finish_same_wait|].
  split; [intros; apply finish_same_wait|].
  split.
  { intros call a s. unfold hook, mbind, M_bind, modify.
    pose proof (preserved_awaiting same_wait same_wait_happen HookError a (emit call s))
      as Hkept.
    by destruct (awaiting HookError a (emit call s)) as [s' [[]| |]]. }
  split; [intros; apply checkpoint_same_wait|].
  intros ev s. apply same_wait_happen.
Qed.

(** ** The claim about pause and cancellation *)

(** C6, as the code has it.  Both suspension points are the same two lines.
    The controller is looked at once, on entry, and before the pause flag: if
    it is aborted the loop leaves with the abort error even when paused.
    Otherwise the loop goes on at once when not paused, and when paused it
    stays blocked from recheck to recheck until one finds the flag cleared;
    the rechecks look at the flag only, so an abort that arrives during the
    pause neither ends the wait nor is reported by this checkpoint.  A
    blocked checkpoint blocks the step before the model is called, resp. the
    macro tool before the tool is run. *)
Theorem checkpoint_cancel_then_pause (w : polls) (st : PageAgent) :
  (aborted (abortController st) = true -> checkpoint w st = (st, Throw AbortError))
  /\ (aborted (abortController st) = false -> paused st = false ->
      checkpoint w st = (st, Ok tt))
  /\ (aborted (abortController st) = false -> paused st = true ->
      checkpoint [] st = (st, Block)
      /\ forall evs w',
           checkpoint (evs :: w') st
           = if paused (happen_all evs st)
             then waitUntil (fun s => negb (paused s)) w' (happen_all evs st)
             else (happen_all evs st, Ok tt))
  /\ (aborted (abortController st) = false ->
      forall e, (checkpoint w st).2 <> Throw e)
  /\ (forall step sw st1,
        before_step sw = calm tt ->
        checkpoint (pause_before_decision sw) (emit (Hook_onBeforeStep step) st)
        = (st1, Block) ->
        step_body step sw st = (st1, Block))
  /\ (forall registry sw decoded st1,
        checkpoint (pause_before_tool sw) st = (st1, Block) ->
        MacroTool_execute registry sw decoded st = (st1, Block)).
Proof.
  split; [|split; [|split; [|split; [|split]]]].
  - intros Ha. by rewrite checkpoint_eq, Ha.
  - intros Ha Hp. rewrite checkpoint_eq, Ha. destruct w; cbn; by rewrite Hp.
  - intros Ha Hp. split.
    + rewrite checkpoint_eq, Ha. cbn. by rewrite Hp.
    + intros evs w'. rewrite checkpoint_eq, Ha. cbn. rewrite Hp. cbn.
      destruct (paused (happen_all evs st)) eqn:Hp'; [done|].
      destruct w'; cbn; by rewrite Hp'.
  - intros Ha e. rewrite checkpoint_eq, Ha. apply waitUntil_no_throw.
  - intros step sw st1 Hhook Hcp. unfold step_body.
    erewrite bind_Ok; [|by unfold hook, awaiting, mbind, M_bind, modify; rewrite Hhook].
    cbn [happen_all foldl]. by erewrite bind_Block.
  - intros registry sw decoded st1 Hcp. unfold MacroTool_execute.
    by erewrite bind_Block.
Qed.

(** ** Turns that do not end the task *)

Lemma run_steps_cons (step : nat) (w : step_world) (ws : list step_world)
    (st : PageAgent) :
  run_steps step (w :: ws) st
  = match step_body step w st with
    | (st1, Ok a) =>
        match run_steps (S step) ws st1 with
        | (st2, Ok l) => (st2, Ok (a :: l))
        | (st2, Throw e) => (st2, Throw e)
        | (st2, Block) => (st2, Block)
        end
    | (st1, Throw e) => (st1, Throw e)
    | (st1, Block) => (st1, Block)
    end.
Proof.
  cbn [run_steps]. unfold mbind at 1, M_bind at 1.
  destruct (step_body step w st) as [st1 [a| |]]; [|done..].
  unfold mbind, M_bind. by destruct (run_steps (S step) ws st1) as [st2 [l| |]].
Qed.

Lemma loop_run_steps (MAX_STEPS : nat) (after : await unit)
    (rest ws : list step_world) (step : nat) (st st1 : PageAgent)
    (acts : list Action) :
  run_steps step ws st = (st1, Ok acts) ->
  Forall (fun a => name a <> Some "done") acts ->
  (step + length ws <= MAX_STEPS)%nat ->
  loop MAX_STEPS step (ws ++ rest) after st
  = loop MAX_STEPS (step + length ws) rest after st1.
Proof.
  revert step st acts. induction ws as [|w ws IH]; intros step st acts Hrun Hnot Hle.
  { cbn in Hrun. injection Hrun as <- _. cbn. by rewrite Nat.add_0_r. }
  rewrite run_steps_cons in Hrun. cbn [app length] in *. rewrite loop_cons.
  destruct (step_body step w st) as [st2 [a| |]]; [|done..].
  destruct (run_steps (S step) ws st2) as [st3 [l| |]] eqn:Hrest; [|done..].
  injection Hrun as <- <-. apply Forall_cons in Hnot as [Ha Hl].
  rewrite decide_False by lia. rewrite decide_False by done.
  rewrite (IH (S step) st2 l) by (done || lia). f_equal. lia.
Qed.

Lemma step_limit_reached (MAX_STEPS : nat) (after : await unit)
    (ws rest : list step_world) (wl : step_world) (st st1 st2 : PageAgent)
    (acts : list Action) (a : Action) :
  length ws = MAX_STEPS ->
  run_steps 0 ws st = (st1, Ok acts) ->
  Forall (fun a => name a <> Some "done") acts ->
  step_body MAX_STEPS wl st1 = (st2, Ok a) ->
  loop MAX_STEPS 0 (ws ++ wl :: rest) after st
  = finish (JStr step_limit_message) (JBool false) after st2.
Proof.
  intros Hlen Hrun Hnot Hlast.
  rewrite (loop_run_steps _ _ _ _ _ _ _ _ Hrun Hnot) by lia.
  cbn [Nat.add]. rewrite Hlen, loop_cons, Hlast.
  rewrite decide_True by lia. done.
Qed.



(** ** The history, as long as the agent is not disposed *)








(** ** The claims about how a task ends *)


#[local] Instance still_aborted_preorder : PreOrder still_aborted.
Proof.
  split; [intros st; by unfold still_aborted|].
  intros st1 st2 st3. unfold still_aborted. auto.
Qed.

Lemma still_aborted_happen (ev : ext_event) (st : PageAgent) :
  still_aborted st (happen ev st).
Proof. destruct ev; unfold still_aborted; cbn; auto. Qed.






(** ** The step ceiling and the length of the history *)

Lemma click_step (step : nat) (st : PageAgent) :
  aborted (abortController st) = false -> paused st = false ->
  tools st !! "click" = Some (a_tool 0) ->
  exists st' a,
    step_body step (selects "click" JNull "clicked" 0) st = (st', Ok a)
    /\ name a = Some "click"
    /\ length (history st') = S (length (history st))
    /\ aborted (abortController st') = false
    /\ paused st' = false
    /\ tools st' !! "click" = Some (a_tool 0).
Proof.
  intros Hab Hp Htool. destruct st as [reg p d t i n c h l]. cbn in *. subst p.
  destruct c as [id ab]. cbn in Hab. subst ab.
  eexists _, _. split.
  - unfold step_body, hook, packMacroTool, invoke, MacroTool_execute, checkpoint,
      awaiting, account_wait, mbind, M_bind, mret, M_ret, gets, modify.
    cbn. rewrite Htool. cbn. reflexivity.
  - cbn. rewrite length_app. cbn. repeat split; [lia|done].
Qed.

Lemma click_steps (n step : nat) (st : PageAgent) :
  aborted (abortController st) = false -> paused st = false ->
  tools st !! "click" = Some (a_tool 0) ->
  exists st' acts,
    run_steps step (replicate n (selects "click" JNull "clicked" 0)) st = (st', Ok acts)
    /\ Forall (fun a => name a <> Some "done") acts
    /\ length (history st') = (length (history st) + n)%nat
    /\ aborted (abortController st') = false
    /\ paused st' = false
    /\ tools st' !! "click" = Some (a_tool 0).
Proof.
  revert step st. induction n as [|n IH]; intros step st Hab Hp Htool.
  { exists st, []. cbn. repeat split; [constructor|lia|done..]. }
  destruct (click_step step st Hab Hp Htool) as (st1 & a & Hstep & Ha & Hlen & Hab1 & Hp1 & Ht1).
  destruct (IH (S step) st1 Hab1 Hp1 Ht1) as (st2 & acts & Hrun & Hnot & Hlen2 & Hab2 & Hp2 & Ht2).
  exists st2, (a :: acts). cbn [replicate]. rewrite run_steps_cons, Hstep, Hrun.
  repeat split; [|lia|done..].
  constructor; [|done]. rewrite Ha. discriminate.
Qed.

#[local] Instance no_longer_preorder : PreOrder no_longer.
Proof.
  split; [intros st; unfold no_longer; lia|].
  intros st1 st2 st3. unfold no_longer. lia.
Qed.







(** C1: the code lets the history grow one past the ceiling.  For every
    value of [MAX_STEPS], a task whose model selects "click" turn after turn
    is ended by the step limit only after turn [MAX_STEPS + 1] has been
    recorded: the history that [execute] returns has [MAX_STEPS + 1]
    records. *)
Theorem history_exceeds_step_limit (MAX_STEPS : nat) :
  exists st' result,
    execute MAX_STEPS "task"
      (world_of (replicate (S MAX_STEPS) (selects "click" JNull "clicked" 0))) agent0
    = (st', Ok result)
    /\ data result = JStr "Step count exceeded maximum limit"
    /\ length (result_history result) = S MAX_STEPS.
Proof.
  set (click := selects "click" JNull "clicked" 0).
  set (w := world_of (replicate (S MAX_STEPS) click)).
  destruct (click_steps MAX_STEPS 0 (enter "task" w agent0))
    as (st1 & acts & Hrun & Hnot & Hlen & Hab & Hp & Htool);
    [reflexivity..|].
  destruct (click_step MAX_STEPS st1 Hab Hp Htool)
    as (st2 & a & Hstep & _ & Hlen2 & _).
  eexists _, _. split.
  - rewrite execute_enters, try_catch_eq by done.
    change (steps w) with (replicate (S MAX_STEPS) click).
    replace (replicate (S MAX_STEPS) click)
      with (replicate MAX_STEPS click ++ click :: [])%list
      by (by rewrite replicate_S_end).
    rewrite (step_limit_reached MAX_STEPS (calm tt) _ [] click _ st1 st2 acts a);
      [|apply length_replicate|exact Hrun|exact Hnot|exact Hstep].
    rewrite finish_eq. reflexivity.
  - split; [reflexivity|]. cbn. rewrite Hlen2, Hlen. cbn. lia.
Qed.

(** * Further properties of the agent *)

(** ** The registry the constructor builds *)

(** X1.  The registry of a new agent is the built-in set overridden by
    [customTools]: a name mapped to a tool holds that tool, whether or not a
    built-in had the name; a name mapped to [null] is absent; every other
    name holds what the built-in set holds.  Without [customTools] the
    registry is the built-in set. *)
Theorem constructor_registry (builtin_tools : gmap string Tool)
    (entries : list (string * option Tool)) (toolName : string) :
  NoDup entries.*1 ->
  tools (new_PageAgent builtin_tools (mkConfig (Some entries))) !! toolName
  = match (list_to_map entries : gmap string (option Tool)) !! toolName with
    | Some given => given
    | None => builtin_tools !! toolName
    end
  /\ tools (new_PageAgent builtin_tools (mkConfig None)) = builtin_tools.
Proof.
  intros Hnd. split; [|done]. cbn.
  destruct (list_to_map entries !! toolName) as [given|] eqn:Hlook.
  - apply elem_of_list_to_map in Hlook; [|done].
    by apply apply_customTools_entry.
  - apply not_elem_of_list_to_map in Hlook.
    by apply apply_customTools_absent.
Qed.

(** ** What a task inherits from the one before *)

(** What the outside does keeps two agents alike that differ only in their
    history and in whether their signal is aborted. *)
Lemma leftovers_happen_all (evs : list ext_event) (s1 s2 : PageAgent) :
  set_history [] (abort s1) = set_history [] (abort s2) ->
  set_history [] (abort (happen_all evs s1)) = set_history [] (abort (happen_all evs s2)).
Proof.
  revert s1 s2. induction evs as [|ev evs IH]; intros s1 s2 Hsame; [done|].
  change (happen_all (ev :: evs) s1) with (happen_all evs (happen ev s1)).
  change (happen_all (ev :: evs) s2) with (happen_all evs (happen ev s2)).
  apply IH.
  destruct s1 as [r1 p1 d1 t1 i1 n1 [c1 a1] h1 l1], s2 as [r2 p2 d2 t2 i2 n2 [c2 a2] h2 l2].
  injection Hsame as -> -> -> -> -> -> -> ->. by destruct ev.
Qed.

(** X2.  [execute] writes the task fields, the controller and the history
    before its loop reads them: whatever history, task, task id and state of
    the signal the previous task left, the run and the agent it ends in are
    the same. *)
Theorem execute_starts_afresh (MAX_STEPS : nat) (task : string) (w : task_world)
    (st : PageAgent) (left_history : list AgentHistory)
    (left_task left_taskId : string) (left_aborted : bool) :
  task <> "" -> comes_back (before_task w) = returns tt ->
  execute MAX_STEPS task w
    (set_history left_history
       (set_task left_task left_taskId
          (set_abortController
             (mkController (controller_id (abortController st)) left_aborted) st)))
  = execute MAX_STEPS task w st.
Proof.
  intros Htask Hbefore. rewrite !execute_enters by done. f_equal.
  unfold enter.
  match goal with
  | |- set_history [] (fresh_abortController (abort (happen_all ?evs ?s1)))
       = set_history [] (fresh_abortController (abort (happen_all ?evs ?s2))) =>
      assert (Hsame : set_history [] (abort (happen_all evs s1))
                      = set_history [] (abort (happen_all evs s2)))
        by (by apply leftovers_happen_all);
      destruct (happen_all evs s1) as [r1 p1 d1 t1 i1 n1 [c1 a1] h1 l1],
               (happen_all evs s2) as [r2 p2 d2 t2 i2 n2 [c2 a2] h2 l2]
  end.
  by injection Hsame as -> -> -> -> -> -> -> ->.
Qed.

(** ** The history that is returned *)


(** ** A cancelled task *)

#[local] Instance same_llm_preorder : PreOrder same_llm.
Proof.
  split; [intros st; by unfold same_llm|].
  intros st1 st2 st3. unfold same_llm. congruence.
Qed.

Lemma llm_count_app (l : list event) (e : event) :
  llm_count (l ++ [e]) = (llm_count l + if is_llm e then 1 else 0)%nat.
Proof.
  unfold llm_count. rewrite filter_app, length_app. f_equal.
  cbn. unfold filter; cbn. by destruct (is_llm e).
Qed.

Lemma same_llm_happen (ev : ext_event) (st : PageAgent) : same_llm st (happen ev st).
Proof.
  destruct ev as [b|reason]; [by unfold same_llm|].
  change (llm_count (log st ++ [Hook_onDispose reason]) = llm_count (log st)).
  rewrite llm_count_app. cbn. lia.
Qed.

(** X4.  Cancellation is observed at the start of the next turn: when the
    signal of the current controller is aborted, the turn calls the
    before-step hook and then leaves with the abort error, without calling
    the model; [execute] turns it into the failure "Error: AbortError".
    Inside the macro tool the same test comes before the tool is looked up or
    run. *)
Theorem cancelled_turn_stops (MAX_STEPS step : nat) (w : step_world)
    (ws : list step_world) (after : await unit) (st : PageAgent) :
  aborted (abortController st) = true ->
  comes_back (before_step w) = returns tt ->
  let st1 := happen_all (meanwhile (before_step w)) (emit (Hook_onBeforeStep step) st) in
  loop MAX_STEPS step (w :: ws) after st = (st1, Throw AbortError)
  /\ llm_count (log st1) = llm_count (log st)
  /\ String_ AbortError = "Error: AbortError"
  /\ (forall registry decoded,
        MacroTool_execute registry w decoded st = (st, Throw AbortError)).
Proof.
  intros Hab Hhook st1.
  assert (Hab1 : aborted (abortController st1) = true).
  { apply (R_happen_all still_aborted still_aborted_happen
             (meanwhile (before_step w)) (emit (Hook_onBeforeStep step) st)), Hab. }
  split; [|split; [|split]].
  - rewrite loop_cons. unfold step_body.
    erewrite bind_Ok; [|by rewrite hook_eq, Hhook].
    fold st1. erewrite bind_Throw; [done|]. by rewrite checkpoint_eq, Hab1.
  - transitivity (llm_count (log (emit (Hook_onBeforeStep step) st))).
    + apply (R_happen_all same_llm same_llm_happen).
    + change (llm_count (log st ++ [Hook_onBeforeStep step]) = llm_count (log st)).
      rewrite llm_count_app. cbn. lia.
  - done.
  - intros registry decoded. unfold MacroTool_execute.
    erewrite bind_Throw; [done|]. by rewrite checkpoint_eq, Hab.
Qed.

(** ** What the collaborators are told *)





(** ** A disposed agent *)

Lemma but_disposed_refl (st : PageAgent) : but_disposed st st.
Proof. done. Qed.

Lemma but_disposed_set (b : bool) (st : PageAgent) : but_disposed st (set_disposed b st).
Proof. done. Qed.

Lemma but_disposed_fields (s1 s2 : PageAgent) :
  but_disposed s1 s2 ->
  tools s1 = tools s2 /\ paused s1 = paused s2 /\ task s1 = task s2
  /\ taskId s1 = taskId s2 /\ totalWaitTime s1 = totalWaitTime s2
  /\ abortController s1 = abortController s2 /\ history s1 = history s2
  /\ log s1 = log s2.
Proof. unfold but_disposed, set_disposed. intros [= -> -> -> -> -> -> -> ->]. done. Qed.

Lemma but_disposed_intro (s1 s2 : PageAgent) :
  tools s1 = tools s2 -> paused s1 = paused s2 -> task s1 = task s2 ->
  taskId s1 = taskId s2 -> totalWaitTime s1 = totalWaitTime s2 ->
  abortController s1 = abortController s2 -> history s1 = history s2 ->
  log s1 = log s2 ->
  but_disposed s1 s2.
Proof.
  unfold but_disposed, set_disposed. by intros -> -> -> -> -> -> -> ->.
Qed.

Ltac by_fields H :=
  apply but_disposed_fields in H;
  destruct H as (Htools & Hpaused & Htask & HtaskId & Hwait & Hctrl & Hhist & Hlog).

Lemma respects_ret {A} (a : A) : respects (mret a).
Proof. by intros s1 s2 Hs. Qed.

Lemma respects_throw {A} (e : error) : respects (@throw A e).
Proof. by intros s1 s2 Hs. Qed.

Lemma respects_gets {A} (f : PageAgent -> A) :
  (forall s1 s2, but_disposed s1 s2 -> f s1 = f s2) -> respects (gets f).
Proof. intros Hf s1 s2 Hs. split; [done|]. cbn. f_equal. by apply Hf. Qed.

Lemma respects_modify (f : PageAgent -> PageAgent) :
  (forall s1 s2, but_disposed s1 s2 -> but_disposed (f s1) (f s2)) ->
  respects (modify f).
Proof. intros Hf s1 s2 Hs. split; [by apply Hf|done]. Qed.

Lemma respects_bind {A B} (m : M A) (k : A -> M B) :
  respects m -> (forall a, respects (k a)) -> respects (m ≫= k).
Proof.
  intros Hm Hk s1 s2 Hs. unfold mbind, M_bind.
  destruct (Hm s1 s2 Hs) as [Hst Hout].
  destruct (m s1) as [s1' o1], (m s2) as [s2' o2]. cbn in *. subst o2.
  destruct o1 as [a| |]; [by apply Hk|done..].
Qed.

Lemma respects_packMacroTool {B} (w : step_world)
    (k : ZodType * (MacroToolInput -> M MacroToolResult) -> M B) :
  (forall registry,
     respects (k (macroToolSchema registry, MacroTool_execute registry w))) ->
  respects (packMacroTool w ≫= k).
Proof.
  intros Hk s1 s2 Hs.
  change ((packMacroTool w ≫= k) s1)
    with (k (macroToolSchema (tools s1), MacroTool_execute (tools s1) w) s1).
  change ((packMacroTool w ≫= k) s2)
    with (k (macroToolSchema (tools s2), MacroTool_execute (tools s2) w) s2).
  pose proof Hs as Hs'. by_fields Hs'. rewrite <- Htools. by apply Hk.
Qed.

Lemma but_disposed_emit (e : event) (s1 s2 : PageAgent) :
  but_disposed s1 s2 -> but_disposed (emit e s1) (emit e s2).
Proof. intros Hs. by_fields Hs. apply but_disposed_intro; cbn; congruence. Qed.

Lemma but_disposed_abort (s1 s2 : PageAgent) :
  but_disposed s1 s2 -> but_disposed (abort s1) (abort s2).
Proof. intros Hs. by_fields Hs. apply but_disposed_intro; cbn; congruence. Qed.

Lemma but_disposed_happen (ev : ext_event) (s1 s2 : PageAgent) :
  but_disposed s1 s2 -> but_disposed (happen ev s1) (happen ev s2).
Proof.
  intros Hs. by_fields Hs. destruct ev; apply but_disposed_intro; cbn; congruence.
Qed.

Lemma but_disposed_happen_all (evs : list ext_event) (s1 s2 : PageAgent) :
  but_disposed s1 s2 -> but_disposed (happen_all evs s1) (happen_all evs s2).
Proof.
  revert s1 s2. induction evs as [|ev evs IH]; intros s1 s2 Hs; [done|].
  cbn. by apply IH, but_disposed_happen.
Qed.

Lemma respects_awaiting {A} raise (w : await A) : respects (awaiting raise w).
Proof.
  intros s1 s2 Hs. unfold awaiting.
  destruct (comes_back w); cbn; (split; [by apply but_disposed_happen_all|done]).
Qed.

Lemma respects_hook call w : respects (hook call w).
Proof.
  unfold hook. apply respects_bind; [|intros _; apply respects_awaiting].
  apply respects_modify. intros s1 s2. apply but_disposed_emit.
Qed.

Lemma respects_checkpoint w : respects (checkpoint w).
Proof.
  intros s1 s2 Hs. rewrite !checkpoint_eq.
  pose proof Hs as Hs'. by_fields Hs'. rewrite <- Hctrl.
  destruct (aborted (abortController s1)); [done|].
  clear Htools Hpaused Htask HtaskId Hwait Hctrl Hhist Hlog.
  revert s1 s2 Hs. induction w as [|evs w IH]; intros s1 s2 Hs; cbn.
  - pose proof Hs as Hs'. by_fields Hs'. rewrite <- Hpaused.
    by destruct (paused s1).
  - pose proof Hs as Hs'. by_fields Hs'. rewrite <- Hpaused.
    destruct (paused s1); cbn; [|done]. by apply IH, but_disposed_happen_all.
Qed.

Lemma respects_account_wait toolName toolInput result duration :
  respects (account_wait toolName toolInput result duration).
Proof.
  unfold account_wait. case_decide.
  - apply respects_bind; [|intros increment].
    { intros s1 s2 Hs. destruct (wait_increment_const toolInput duration) as [r Hr].
      by rewrite !Hr. }
    apply respects_bind; [|intros _].
    { apply respects_modify. intros s1 s2 Hs. by_fields Hs.
      apply but_disposed_intro; cbn; congruence. }
    apply respects_bind; [|intros total; apply respects_ret].
    apply respects_gets. intros s1 s2 Hs. by by_fields Hs.
  - apply respects_bind; [|intros _; apply respects_ret].
    apply respects_modify. intros s1 s2 Hs. by_fields Hs.
    apply but_disposed_intro; cbn; congruence.
Qed.

Lemma respects_MacroTool_execute registry w decoded :
  respects (MacroTool_execute registry w decoded).
Proof.
  unfold MacroTool_execute.
  apply respects_bind; [apply respects_checkpoint|intros _].
  destruct (_ ≫= _) as [tool|]; [|apply respects_throw].
  apply respects_bind; [|intros _].
  { apply respects_modify. intros s1 s2. apply but_disposed_emit. }
  apply respects_bind; [apply respects_awaiting|intros r].
  apply respects_bind; [apply respects_account_wait|intros result; apply respects_ret].
Qed.

Lemma respects_step_body step w : respects (step_body step w).
Proof.
  unfold step_body.
  apply respects_bind; [apply respects_hook|intros _].
  apply respects_bind; [apply respects_checkpoint|intros _].
  apply respects_packMacroTool. intros registry. cbn [fst snd].
  apply respects_bind; [|intros result].
  { unfold invoke.
    apply respects_bind; [|intros _].
    { apply respects_modify. intros s1 s2. apply but_disposed_emit. }
    apply respects_bind; [apply respects_awaiting|intros d].
    apply respects_bind; [apply respects_MacroTool_execute|intros r].
    apply respects_ret. }
  apply respects_bind; [|intros _].
  { apply respects_modify. intros s1 s2 Hs. by_fields Hs.
    apply but_disposed_intro; cbn; congruence. }
  apply respects_bind; [|intros h].
  { apply respects_gets. intros s1 s2 Hs. by by_fields Hs. }
  apply respects_bind; [apply respects_hook|intros _; apply respects_ret].
Qed.

Lemma respects_finish text flag after : respects (finish text flag after).
Proof.
  unfold finish, onDone.
  apply respects_bind; [|intros _].
  { apply respects_bind; [|intros _].
    - apply respects_modify. intros s1 s2. apply but_disposed_emit.
    - apply respects_modify. intros s1 s2. apply but_disposed_abort. }
  apply respects_bind; [|intros h].
  { apply respects_gets. intros s1 s2 Hs. by by_fields Hs. }
  apply respects_bind; [apply respects_hook|intros _; apply respects_ret].
Qed.

Lemma respects_loop MAX_STEPS after ws step : respects (loop MAX_STEPS step ws after).
Proof.
  revert step. induction ws as [|w ws IH]; intros step; [by intros s1 s2 Hs|].
  cbn [loop]. apply respects_bind; [apply respects_step_body|intros a].
  repeat case_decide; [apply respects_finish..|apply IH].
Qed.

(** X6.  [execute] never looks at the [disposed] flag: on a disposed agent a
    task runs exactly as on a live one, with the same result or error, and
    the two agents end up differing at most in that flag. *)
Theorem execute_ignores_disposed (MAX_STEPS : nat) (task : string)
    (w : task_world) (st : PageAgent) (flag : bool) :
  (execute MAX_STEPS task w (set_disposed flag st)).2
  = (execute MAX_STEPS task w st).2
  /\ but_disposed (execute MAX_STEPS task w st).1
       (execute MAX_STEPS task w (set_disposed flag st)).1.
Proof.
  assert (Hexecute : respects (execute MAX_STEPS task w)).
  { unfold execute. case_decide; [apply respects_throw|].
    apply respects_bind; [|intros _].
    { apply respects_modify. intros s1 s2 Hs. by_fields Hs.
      apply but_disposed_intro; cbn; congruence. }
    apply respects_bind; [apply respects_hook|intros _].
    apply respects_bind; [|intros _].
    { apply respects_modify. intros s1 s2. apply but_disposed_abort. }
    apply respects_bind; [|intros _].
    { apply respects_modify. intros s1 s2 Hs. by_fields Hs.
      apply but_disposed_intro; cbn; congruence. }
    apply respects_bind; [|intros _].
    { apply respects_modify. intros s1 s2 Hs. by_fields Hs.
      apply but_disposed_intro; cbn; congruence. }
    intros s1 s2 Hs. unfold try_catch.
    destruct (respects_loop MAX_STEPS (after_task w) (steps w) 0 s1 s2 Hs) as [Hst Hout].
    destruct (loop _ _ _ _ s1) as [s1' o1], (loop _ _ _ _ s2) as [s2' o2].
    cbn in *. subst o2. destruct o1 as [r|e|]; [done| |done].
    by apply respects_finish. }
  destruct (Hexecute st (set_disposed flag st) (but_disposed_set flag st)) as [H1 H2].
  by split.
Qed.

(** ** The order of the history *)


(** ** A paused agent *)

Lemma paused_happen_all (evs : list ext_event) (st : PageAgent) :
  Forall (fun ev => ev <> SetPaused false) evs ->
  paused st = true -> paused (happen_all evs st) = true.
Proof.
  revert st. induction evs as [|ev evs IH]; intros st Hevs Hp; [done|].
  apply Forall_cons in Hevs as [Hev Hevs].
  change (paused (happen_all evs (happen ev st)) = true).
  apply IH; [done|]. destruct ev as [[|]|reason]; done.
Qed.

Lemma waitUntil_blocks (w : polls) (st : PageAgent) :
  stays_paused w -> paused st = true ->
  exists st', waitUntil (fun s => negb (paused s)) w st = (st', Block)
              /\ paused st' = true.
Proof.
  intros Hw. revert st. induction Hw as [|evs w Hevs Hw IH]; intros st Hp; cbn.
  - rewrite Hp. by exists st.
  - rewrite Hp. cbn. apply IH. by apply paused_happen_all.
Qed.

(** X16.  While the agent stays paused, a turn that has not seen its signal
    aborted goes no further than the pause before the decision: it is still
    blocked after any number of rechecks, the flag is still set, and the model
    has not been called.  A dispose during the pause does not change that. *)
Theorem paused_turn_waits (step : nat) (w : step_world) (st : PageAgent) :
  let st0 := happen_all (meanwhile (before_step w)) (emit (Hook_onBeforeStep step) st) in
  comes_back (before_step w) = returns tt ->
  aborted (abortController st0) = false ->
  paused st0 = true ->
  stays_paused (pause_before_decision w) ->
  exists st',
    step_body step w st = (st', Block)
    /\ paused st' = true
    /\ llm_count (log st') = llm_count (log st).
Proof.
  intros st0 Hhook Hab Hp Hw.
  destruct (waitUntil_blocks _ st0 Hw Hp) as (st' & Hwait & Hp').
  assert (Hcp : checkpoint (pause_before_decision w) st0 = (st', Block))
    by (by rewrite checkpoint_eq, Hab).
  exists st'. split; [|split; [done|]].
  - unfold step_body.
    erewrite bind_Ok; [|by rewrite hook_eq, Hhook].
    fold st0. by erewrite bind_Block.
  - pose proof (preserved_checkpoint same_llm same_llm_happen
                  (pause_before_decision w) st0) as H1.
    rewrite Hcp in H1. unfold same_llm in H1. cbn [fst] in H1. rewrite H1.
    transitivity (llm_count (log (emit (Hook_onBeforeStep step) st))).
    + apply (R_happen_all same_llm same_llm_happen).
    + change (llm_count (log st ++ [Hook_onBeforeStep step]) = llm_count (log st)).
      rewrite llm_count_app. cbn. lia.
Qed.

End Agent.

(** * Examples for the agent *)

#[local] Existing Instance example_engine.

Lemma null_override_removes_tool_witness :
  let agent := new_PageAgent builtin (mkConfig (Some [("ask_user", None)])) in
  let w := selects "ask_user" JNull "" 0 in
  tools agent !! "ask_user" = None
  /\ (exists schema,
        packMacroTool w agent = (agent, Ok (schema, MacroTool_execute (tools agent) w))
        /\ ("ask_user" ∉ schema_names schema)
        /\ ZObject [("click", ZAny)] ∈ action_variants schema)
  /\ MacroTool_execute (tools agent) w
       (mkInput None None None [("ask_user", JNull)]) agent
     = (agent, Throw (ToolNotFound (Some "ask_user"))).
Proof.
  intros agent w.
  assert (Hnd : NoDup [("ask_user", @None Tool)].*1)
    by (apply NoDup_singleton).
  assert (Hin : ("ask_user", None) ∈ [("ask_user", @None Tool)])
    by (apply list_elem_of_here).
  destruct (null_override_removes_tool builtin [("ask_user", None)] "ask_user" Hnd Hin)
    as (H1 & H2 & H3).
  split; [exact H1|]. split.
  - destruct (H2 w agent) as (schema & Hpack & _ & Hvariants & _ & _ & Hgone).
    exists schema. split; [exact Hpack|]. split; [by apply Hgone|].
    apply Hvariants. exists "click", (a_tool 0). split; [by vm_compute|done].
  - apply (H3 agent w _ JNull agent); reflexivity.
Defined.


Lemma empty_task_rejected_witness :
  execute 2 "" (world_of [selects "done" (JObj []) "" 0]) agent0
  = (agent0, Throw TaskRequired)
  /\ ("" = "" /\ TaskRequired = TaskRequired /\ agent0 = agent0).
Proof.
  pose proof (empty_task_rejected 2 (world_of [selects "done" (JObj []) "" 0]) agent0)
    as [H1 H2].
  split; [exact H1|]. exact (H2 "" agent0 TaskRequired H1 eq_refl).
Defined.

Lemma wait_accumulator_kept_at_start_witness :
  let st := (execute 2 "first"
               (world_of [selects "wait" (seconds_input 2) "waited" 3;
                          rejects "decode error"]) agent0).1 in
  let second := world_of [rejects "decode error"] in
  totalWaitTime st = 2%float
  /\ totalWaitTime (enter "second" second st) = totalWaitTime st
  /\ totalWaitTime (execute 2 "second" second st).1 = totalWaitTime st.
Proof.
  intros st second.
  destruct (wait_accumulator_kept_at_start 2 "second" second st)
    as (_ & H2 & _ & _ & _ & H6 & _); [discriminate|reflexivity|].
  split; [by vm_compute|]. split; [exact H2|]. apply H6. by vm_compute.
Defined.

(** C2, as stated, fails: a task whose last tool was "wait" and that then
    failed leaves the accumulator at 2, and the next [execute] is suspended
    before its first step with the accumulator still at 2. *)
Lemma wait_accumulator_not_reset :
  let st := (execute 2 "first"
               (world_of [selects "wait" (seconds_input 2) "waited" 3;
                          rejects "decode error"]) agent0).1 in
  exists st', execute 2 "second" (world_of []) st = (st', Block)
              /\ history st' = []
              /\ totalWaitTime st' = 2%float
              /\ totalWaitTime st' <> 0%float.
Proof.
  intros st. exists (execute 2 "second" (world_of []) st).1.
  split; [by vm_compute|]. split; [by vm_compute|]. split; [by vm_compute|].
  intros Heq. apply (f_equal Prim2SF) in Heq. vm_compute in Heq. discriminate.
Qed.

Lemma checkpoint_cancel_then_pause_witness :
  let st := set_paused true agent0 in
  checkpoint [[]; [SetPaused false]] (abort st) = (abort st, Throw AbortError)
  /\ checkpoint [[]; [SetPaused false]] agent0 = (agent0, Ok tt)
  /\ checkpoint [[]; [SetPaused false]] st = (agent0, Ok tt)
  /\ step_body 0 (selects "click" JNull "clicked" 0) st
     = (emit (Hook_onBeforeStep 0) st, Block).
Proof.
  intros st.
  destruct (checkpoint_cancel_then_pause [[]; [SetPaused false]] (abort st))
    as (H1 & _).
  destruct (checkpoint_cancel_then_pause [[]; [SetPaused false]] agent0)
    as (_ & H2 & _).
  destruct (checkpoint_cancel_then_pause [[]; [SetPaused false]] st)
    as (_ & _ & H3 & _ & H5 & _).
  split; [exact (H1 eq_refl)|]. split; [exact (H2 eq_refl eq_refl)|].
  split.
  - destruct (H3 eq_refl eq_refl) as [_ H3']. rewrite H3'. reflexivity.
  - apply H5; reflexivity.
Defined.

(** C6, as stated, fails: the agent is paused, and it is disposed (which
    aborts the current controller) before the first recheck.  The loop stays
    blocked through every later recheck although the controller is aborted;
    and when it is then unpaused, the checkpoint lets it go on without the
    abort error. *)
Lemma cancel_during_pause_unobserved :
  let st := set_paused true agent0 in
  (exists st', checkpoint [[Dispose None]; []; []] st = (st', Block)
               /\ aborted (abortController st') = true
               /\ paused st' = true)
  /\ (exists st', checkpoint [[Dispose None]; []; [SetPaused false]] st = (st', Ok tt)
                  /\ aborted (abortController st') = true).
Proof.
  intros st. split; eexists; (split; [reflexivity|]); done.
Qed.









Lemma constructor_registry_witness :
  let entries := [("wait", Some (a_tool 7)); ("ask_user", None);
                  ("open_tab", Some (a_tool 8))] in
  let agent := new_PageAgent builtin (mkConfig (Some entries)) in
  tools agent !! "wait" = Some (a_tool 7)
  /\ tools agent !! "ask_user" = None
  /\ tools agent !! "open_tab" = Some (a_tool 8)
  /\ tools agent !! "click" = Some (a_tool 0).
Proof.
  intros entries agent.
  assert (Hnd : NoDup entries.*1).
  { apply (bool_decide_unpack _). by vm_compute. }
  split; [|split; [|split]].
  - refine (eq_trans (proj1 (constructor_registry builtin entries "wait" Hnd)) _).
    by vm_compute.
  - refine (eq_trans (proj1 (constructor_registry builtin entries "ask_user" Hnd)) _).
    by vm_compute.
  - refine (eq_trans (proj1 (constructor_registry builtin entries "open_tab" Hnd)) _).
    by vm_compute.
  - refine (eq_trans (proj1 (constructor_registry builtin entries "click" Hnd)) _).
    by vm_compute.
Defined.

Lemma execute_starts_afresh_witness :
  let first := world_of [selects "click" JNull "clicked" 0;
                         tool_fails "click" "Error: element not found"] in
  let second := mkWorld "uid" (mkAwait [SetPaused true; SetPaused false] (returns tt))
                  [selects "done" (JObj [("text", JStr "ok")]) "" 0]
                  (calm tt) (calm tt) in
  let st := (execute 5 "first" first agent0).1 in
  aborted (abortController st) = true
  /\ length (history st) = 1%nat
  /\ execute 5 "second" second st
     = execute 5 "second" second
         (set_history [] (set_task "" ""
            (set_abortController (mkController 1 false) st))).
Proof.
  intros first second st. split; [by vm_compute|]. split; [by vm_compute|].
  symmetry.
  refine (eq_trans _ (execute_starts_afresh 5 "second" second st [] "" "" false _ _)).
  - by vm_compute.
  - discriminate.
  - reflexivity.
Defined.


Lemma cancelled_turn_stops_witness :
  let w := world_of [selects "click" JNull "clicked" 0;
                     {| before_step := calm tt;
                        pause_before_decision := [];
                        decision := calm (mkInput None None None [("click", JNull)],
                                          no_usage);
                        pause_before_tool := [];
                        tool_run := fun _ _ => mkAwait [Dispose None]
                                                 (returns ("clicked", 0%float));
                        after_step := calm tt |};
                     selects "done" (JObj []) "" 0] in
  let run := execute 5 "task" w agent0 in
  (exists h, run.2 = Ok {| success := JBool false; data := JStr "Error: AbortError";
                           result_history := [h] |})
  /\ llm_count (log run.1) = 2%nat
  /\ loop 5 2 [selects "done" (JObj []) "" 0] (calm tt) (abort agent0)
     = (emit (Hook_onBeforeStep 2) (abort agent0), Throw AbortError).
Proof.
  intros w run. split; [vm_compute; by eexists|]. split; [by vm_compute|].
  by destruct (cancelled_turn_stops 5 2 (selects "done" (JObj []) "" 0) []
                 (calm tt) (abort agent0) eq_refl eq_refl) as [H _].
Defined.



Lemma paused_turn_waits_witness :
  let w := {| before_step := calm tt;
              pause_before_decision := [[]; [Dispose None]; [SetPaused true]; []];
              decision := calm (mkInput None None None [("click", JNull)], no_usage);
              pause_before_tool := [];
              tool_run := fun _ _ => calm ("clicked", 0%float);
              after_step := calm tt |} in
  exists st', step_body 0 w (set_paused true agent0) = (st', Block)
              /\ paused st' = true
              /\ llm_count (log st') = 0%nat.
Proof.
  intros w.
  destruct (paused_turn_waits 0 w (set_paused true agent0)) as (st' & H1 & H2 & H3).
  - reflexivity.
  - reflexivity.
  - reflexivity.
  - repeat constructor; discriminate.
  - exists st'. by split_and!.
Defined.

(** * Properties of the model configuration *)

(** X8.  [parseLLMConfig] keeps every field that is given, also when its
    value is falsy (a temperature or a retry count of 0, an empty key), and
    fills in the default only for a field that is absent.  A complete
    configuration comes back as it is whatever the defaults are, so parsing
    twice is parsing once. *)
Theorem parseLLMConfig_keeps_what_is_given
    (base key name : string) (temp : Q) (tokens retries : Z)
    (config : LLMConfig) (complete : RequiredLLMConfig) :
  let parse := parseLLMConfig base key name temp tokens retries in
  parse (as_LLMConfig complete) = complete
  /\ parse (as_LLMConfig (parse config)) = parse config
  /\ (forall v, baseURL config = Some v -> required_baseURL (parse config) = v)
  /\ (forall v, apiKey config = Some v -> required_apiKey (parse config) = v)
  /\ (forall v, model config = Some v -> required_model (parse config) = v)
  /\ (forall v, temperature config = Some v -> required_temperature (parse config) = v)
  /\ (forall v, maxTokens config = Some v -> required_maxTokens (parse config) = v)
  /\ (forall v, maxRetries config = Some v -> required_maxRetries (parse config) = v)
  /\ parse (mkLLMConfig None None None None None None)
     = mkRequiredLLMConfig base key name temp tokens retries.
Proof.
  intros parse. split; [by destruct complete|]. split; [done|].
  unfold parse, parseLLMConfig. cbn.
  repeat split; by intros v ->.
Qed.

Lemma parseLLMConfig_keeps_what_is_given_witness :
  let parse := parseLLMConfig "https://example.org/v1" "key" "model-a" 0.7%Q 4096 2 in
  let config := mkLLMConfig None (Some "") None (Some 0%Q) None (Some 0) in
  required_apiKey (parse config) = ""
  /\ required_temperature (parse config) = 0%Q
  /\ required_maxRetries (parse config) = 0
  /\ parse (as_LLMConfig (parse config)) = parse config.
Proof.
  intros parse config.
  destruct (parseLLMConfig_keeps_what_is_given "https://example.org/v1" "key"
              "model-a" 0.7%Q 4096 2 config (parse config))
    as (_ & Hagain & _ & Hkey & _ & Htemp & _ & Hretries & _).
  exact (conj (Hkey "" eq_refl)
           (conj (Htemp 0%Q eq_refl) (conj (Hretries 0 eq_refl) Hagain))).
Defined.

(** * Properties of the navigation detector *)

Import NavigationDetector.

Lemma closest_from_found (selectors : list string) (n : Node) (ancestors : list Node)
    (found : Element) :
  closest_from selectors n ancestors = Some found ->
  localName found.1 ∈ selectors
  /\ found.1 ∈ n :: ancestors
  /\ (length found.2 <= length ancestors)%nat.
Proof.
  revert n. induction ancestors as [|parent ancestors IH]; intros n; cbn.
  - case_bool_decide; [|done]. intros [= <-]. split; [done|]. split; [|done].
    apply list_elem_of_here.
  - case_bool_decide.
    + intros [= <-]. split; [done|]. split; [apply list_elem_of_here|]. cbn. lia.
    + intros Hfound. apply IH in Hfound as (? & ? & ?). split; [done|].
      split; [by apply list_elem_of_further|]. lia.
Qed.

Lemma closest_self (selectors : list string) (element : Element) :
  localName element.1 ∈ selectors -> closest selectors element = Some element.
Proof.
  intros Hin. destruct element as [n ancestors]. unfold closest. cbn [fst snd].
  destruct ancestors; cbn; by rewrite bool_decide_true.
Qed.

Lemma predict_own (URL_href : string -> string -> option string)
    (fuel1 fuel2 : nat) (href : string) (now : Z) (element : Element) :
  decided element ->
  predictNavigation URL_href (S fuel1) href now (Some element)
  = predictNavigation URL_href (S fuel2) href now (Some element)
  /\ is_Some (predictNavigation URL_href (S fuel1) href now (Some element)).
Proof.
  intros Htag. cbn [predictNavigation].
  destruct (decide (tagName element.1 = "A")) as [Ha|Ha].
  - split; [done|].
    destruct (getAttribute element "href") as [link|]; [|by eexists].
    destruct (_ || _); [by eexists|]. destruct (_ || _); [by eexists|].
    case_decide; by eexists.
  - destruct (decide (tagName element.1 = "FORM")) as [Hf|Hf]; [|by destruct Htag].
    split; [done|]. case_decide; by eexists.
Qed.

Lemma predict_enclosing (URL_href : string -> string -> option string)
    (fuel : nat) (href : string) (now : Z) (element : Element) :
  ~ decided element ->
  predictNavigation URL_href (S fuel) href now (Some element)
  = match closest ["form"] element with
    | Some form => predictNavigation URL_href fuel href now (Some form)
    | None => Some None
    end.
Proof.
  intros Hnot. cbn [predictNavigation].
  destruct (decide (tagName element.1 = "A")) as [?|_]; [by destruct Hnot; left|].
  destruct (decide (tagName element.1 = "FORM")) as [?|_]; [by destruct Hnot; right|].
  done.
Qed.

(** On a form that is not decided on the spot the calls never end: the
    nearest form of such an element is the element itself. *)
Lemma predict_endless (URL_href : string -> string -> option string)
    (fuel : nat) (href : string) (now : Z) (form : Element) :
  localName form.1 = "form" -> ~ decided form ->
  predictNavigation URL_href fuel href now (Some form) = None.
Proof.
  intros Hform Hnot. induction fuel as [|fuel IH]; [done|].
  rewrite predict_enclosing by done.
  rewrite closest_self; [done|]. rewrite Hform. apply list_elem_of_here.
Qed.

Lemma closest_form (element form : Element) :
  closest ["form"] element = Some form -> localName form.1 = "form".
Proof.
  intros Hform. apply closest_from_found in Hform as [Hin _].
  by apply list_elem_of_singleton in Hin.
Qed.

Lemma predict_ends (URL_href : string -> string -> option string)
    (fuel : nat) (href : string) (now : Z) (element : Element) :
  ends element ->
  exists prediction,
    predictNavigation URL_href (S (S fuel)) href now (Some element) = Some prediction
    /\ predictNavigation URL_href 2 href now (Some element) = Some prediction.
Proof.
  intros Hends.
  destruct (decide (tagName element.1 = "A" \/ tagName element.1 = "FORM"))
    as [Htag|Htag].
  - destruct (predict_own URL_href (S fuel) 1 href now element Htag) as [Heq [p Hp]].
    exists p. by rewrite <- Heq.
  - destruct Hends as [?|Hform]; [done|].
    rewrite !predict_enclosing by done.
    destruct (closest ["form"] element) as [form|]; [|by exists None].
    destruct (predict_own URL_href fuel 0 href now form Hform) as [Heq [p Hp]].
    exists p. by rewrite <- Heq.
Qed.

Lemma predict_returned (URL_href : string -> string -> option string)
    (fuel : nat) (href : string) (now : Z) (element : Element)
    (prediction : option NavigationEvent) :
  predictNavigation URL_href fuel href now (Some element) = Some prediction ->
  ends element.
Proof.
  destruct fuel as [|fuel]; [done|]. intros Hp.
  destruct (decide (tagName element.1 = "A" \/ tagName element.1 = "FORM"))
    as [Htag|Htag]; [by left|].
  right. rewrite predict_enclosing in Hp by done.
  destruct (closest ["form"] element) as [form|] eqn:Hform; [|done].
  destruct (decide (tagName form.1 = "A" \/ tagName form.1 = "FORM"))
    as [Hdecided|Hnot]; [done|].
  rewrite predict_endless in Hp; [done|by eapply closest_form|done].
Qed.

(** X9.  A call of [predictNavigation] ends exactly when the element is
    decided on the spot (its tag name is that of a link or of a form), or no
    form encloses it, or the enclosing form is decided on the spot; it then
    ends after at most one call of itself.  Otherwise the nearest element
    that the selector [form] matches has another tag name, as a form of an
    XML document or of another namespace has; the function calls itself on
    that element again and again, and no number of calls ends the run.  In
    an HTML document, where such an element has the tag name of a form,
    every call ends. *)
Theorem predictNavigation_returns (URL_href : string -> string -> option string)
    (href : string) (now : Z) (element : Element) :
  (ends element <->
   exists fuel prediction,
     predictNavigation URL_href fuel href now (Some element) = Some prediction)
  /\ (ends element -> forall fuel, (2 <= fuel)%nat ->
      exists prediction,
        predictNavigation URL_href fuel href now (Some element) = Some prediction
        /\ predictNavigation URL_href 2 href now (Some element) = Some prediction)
  /\ (~ ends element -> forall fuel,
      predictNavigation URL_href fuel href now (Some element) = None)
  /\ (html_forms element -> ends element)
  /\ (forall fuel, predictNavigation URL_href (S fuel) href now None = Some None).
Proof.
  split; [|split; [|split; [|split]]].
  - split.
    + intros Hends. destruct (predict_ends URL_href 0 href now element Hends)
        as (p & Hp & _). by exists 2%nat, p.
    + intros (fuel & p & Hp). by eapply predict_returned.
  - intros Hends fuel Hfuel. destruct fuel as [|[|fuel]]; [lia..|].
    by apply predict_ends.
  - intros Hnot fuel.
    destruct (predictNavigation URL_href fuel href now (Some element)) as [p|] eqn:Hp;
      [|done].
    destruct Hnot. by eapply predict_returned.
  - intros Hhtml.
    destruct (decide (tagName element.1 = "A" \/ tagName element.1 = "FORM"))
      as [Htag|Htag]; [by left|]. right.
    destruct (closest ["form"] element) as [form|] eqn:Hform; [|done].
    right. pose proof (closest_form _ _ Hform) as Hname.
    apply closest_from_found in Hform as (_ & Hin & _).
    unfold html_forms in Hhtml. rewrite Forall_forall in Hhtml. by apply Hhtml.
  - done.
Qed.

Lemma predictNavigation_returns_witness :
  let button := html "button" ∅ "" in
  let div := html "div" ∅ "" in
  let form := html "form" ∅ "https://example.org/search" in
  let body := html "body" ∅ "" in
  let xml_form := mkNode "form" "form" ∅ "" in
  let xml_button := mkNode "button" "button" ∅ "" in
  let URL := fun url base : string => Some url in
  predictNavigation URL 7 "https://example.org/" 5 (Some (button, [div; form; body]))
  = Some (Some {| type := mpa; from := "https://example.org/";
                  to := "https://example.org/search";
                  method := submit_form; timestamp := 5 |})
  /\ predictNavigation URL 7 "https://example.org/" 5 (Some (xml_button, [xml_form]))
     = None.
Proof.
  intros button div form body xml_form xml_button URL.
  destruct (predictNavigation_returns URL "https://example.org/" 5
              (button, [div; form; body])) as (_ & H2 & _ & H4 & _).
  destruct (predictNavigation_returns URL "https://example.org/" 5
              (xml_button, [xml_form])) as (_ & _ & H3 & _).
  split.
  - destruct (H2 (H4 ltac:(repeat constructor; by vm_compute)) 7%nat ltac:(lia))
      as (p & H7 & Htwo).
    transitivity (Some p); [exact H7|]. rewrite <- Htwo. by vm_compute.
  - apply H3. intros Hends. vm_compute in Hends.
    destruct Hends as [[Htag|Htag]|[Htag|Htag]]; discriminate Htag.
Defined.

Lemma prediction_shape_own (URL_href : string -> string -> option string)
    (fuel : nat) (href : string) (now : Z) (element : Element)
    (e : NavigationEvent) :
  tagName element.1 = "A" \/ tagName element.1 = "FORM" ->
  predictNavigation URL_href (S fuel) href now (Some element) = Some (Some e) ->
  (type e = mpa \/ type e = new_window)
  /\ from e = href
  /\ timestamp e = now
  /\ (type e = new_window <-> getAttribute element "target" = Some "_blank").
Proof.
  intros Htag. cbn [predictNavigation].
  destruct (decide (tagName element.1 = "A")) as [Ha|Ha].
  - destruct (getAttribute element "href") as [link|]; [|done].
    destruct (_ || _); [done|]. destruct (_ || _); [done|].
    case_decide; intros [= <-]; cbn; split_and!; try done; auto;
      try (split; [done|]; by intros ?).
  - destruct (decide (tagName element.1 = "FORM")) as [Hf|Hf]; [|tauto].
    case_decide; intros [= <-]; cbn; split_and!; try done; auto;
      try (split; [done|]; by intros ?).
Qed.

(** X10.  A prediction is of a page load or of a new window, never of an
    in-page navigation or of a closing window; it starts at the current
    location and bears the current time.  It is decided by the element
    itself when that is a link or a form and by the enclosing form
    otherwise, and it is of a new window exactly when the deciding element
    has the target "_blank". *)
Theorem prediction_shape (URL_href : string -> string -> option string)
    (fuel : nat) (href : string) (now : Z) (element : Element)
    (e : NavigationEvent) :
  predictNavigation URL_href fuel href now (Some element) = Some (Some e) ->
  (type e = mpa \/ type e = new_window)
  /\ from e = href
  /\ timestamp e = now
  /\ exists decider,
       ((tagName element.1 = "A" \/ tagName element.1 = "FORM") /\ decider = element
        \/ (tagName element.1 <> "A" /\ tagName element.1 <> "FORM"
            /\ closest ["form"] element = Some decider))
       /\ (type e = new_window <-> getAttribute decider "target" = Some "_blank").
Proof.
  destruct fuel as [|fuel]; [done|]. intros Hp.
  destruct (decide (tagName element.1 = "A" \/ tagName element.1 = "FORM"))
    as [Htag|Htag].
  - destruct (prediction_shape_own _ _ _ _ _ _ Htag Hp) as (H1 & H2 & H3 & H4).
    split_and!; try done. exists element. split; [by left|done].
  - assert (Ha : tagName element.1 <> "A") by tauto.
    assert (Hf : tagName element.1 <> "FORM") by tauto.
    rewrite predict_enclosing in Hp by done.
    destruct (closest ["form"] element) as [form|] eqn:Hform; [|done].
    destruct fuel as [|fuel]; [done|].
    destruct (decide (tagName form.1 = "A" \/ tagName form.1 = "FORM"))
      as [Hdecided|Hnot].
    + destruct (prediction_shape_own _ _ _ _ _ _ Hdecided Hp)
        as (H1 & H2 & H3 & H4).
      split_and!; try done. exists form. split; [by right|done].
    + rewrite predict_endless in Hp; [done|by eapply closest_form|done].
Qed.

Lemma prediction_shape_witness :
  let span := html "span" ∅ "" in
  let link := html "a" {[ "href" := "/cart" ]} "" in
  let form := html "form" {[ "target" := "_blank" ]} "https://example.org/pay" in
  let URL := fun url base : string => Some (base ++ url) in
  let e := {| type := new_window; from := "https://example.org";
              to := "https://example.org/pay";
              method := submit_form_blank; timestamp := 9 |} in
  predictNavigation URL 2 "https://example.org" 9 (Some (span, [link; form]))
  = Some (Some e)
  /\ from e = "https://example.org" /\ timestamp e = 9.
Proof.
  intros span link form URL e.
  assert (Hp : predictNavigation URL 2 "https://example.org" 9
                 (Some (span, [link; form])) = Some (Some e)) by (by vm_compute).
  destruct (prediction_shape URL 2 "https://example.org" 9 (span, [link; form]) e Hp)
    as (_ & H2 & H3 & _).
  by split.
Defined.

(** X11.  A link that has no [href], an empty one, "#", or one with the
    scheme [javascript:], [mailto:] or [tel:] predicts nothing, wherever it
    stands: the form around it is not asked. *)
Theorem dead_link_predicts_nothing (URL_href : string -> string -> option string)
    (fuel : nat) (href : string) (now : Z) (element : Element) :
  tagName element.1 = "A" ->
  match getAttribute element "href" with
  | None => True
  | Some link =>
      link = "" \/ link = "#" \/ String.prefix "javascript:" link = true
      \/ String.prefix "mailto:" link = true \/ String.prefix "tel:" link = true
  end ->
  predictNavigation URL_href (S fuel) href now (Some element) = Some None.
Proof.
  intros Ha Hlink. cbn [predictNavigation].
  destruct (decide (tagName element.1 = "A")) as [_|?]; [|done].
  destruct (getAttribute element "href") as [link|]; [|done].
  destruct Hlink as [->|[->|[H|[H|H]]]]; [done..| | |].
  - destruct (_ || _); [done|]. by rewrite H.
  - destruct (_ || _); [done|]. rewrite H. by rewrite orb_true_r.
  - destruct (_ || _); [done|]. rewrite H. by rewrite orb_true_r.
Qed.

Lemma dead_link_predicts_nothing_witness :
  let link := html "a" {[ "href" := "javascript:void(0)" ]} "" in
  let form := html "form" ∅ "https://example.org/pay" in
  predictNavigation (fun url base => Some url) 2 "https://example.org" 9
    (Some (link, [form]))
  = Some None.
Proof.
  intros link form.
  apply (dead_link_predicts_nothing _ 1 _ _ (link, [form])); [reflexivity|].
  by vm_compute; auto.
Defined.

(** ** The detector while it is disabled *)

(** X12.  A disabled detector does nothing when a wrapped function is
    called or an event arrives: the callback is not called and no field
    changes; only the timer of an earlier click still clears the pending
    prediction.  Over any sequence of occurrences it has received nothing
    more and its URL is the same. *)
Theorem disabled_detector_is_silent (URL_href : string -> string -> option string)
    (d : Detector) :
  enabled d = false ->
  (forall href now comes o,
     handle URL_href href now comes o d
     = (match o with
        | PredictionTimeout => set_lastClickPrediction None d
        | _ => d
        end, None))
  /\ (forall moments,
        received (run URL_href moments d) = received d
        /\ currentUrl (run URL_href moments d) = currentUrl d
        /\ enabled (run URL_href moments d) = false).
Proof.
  intros Hoff.
  assert (Hone : forall d, enabled d = false ->
            forall href now comes o,
              handle URL_href href now comes o d
              = (match o with
                 | PredictionTimeout => set_lastClickPrediction None d
                 | _ => d
                 end, None)).
  { intros d' Hd href now comes o. destruct o; cbn; by rewrite ?Hd. }
  split; [by apply Hone|].
  intros moments. revert d Hoff.
  induction moments as [|m moments IH]; intros d Hoff; [done|].
  unfold run. cbn [foldl]. fold (run URL_href moments).
  rewrite Hone by done. cbn [fst].
  destruct (what m); try (by apply IH).
  destruct (IH (set_lastClickPrediction None d) Hoff) as (H1 & H2 & H3).
  split_and!; [exact H1|exact H2|exact H3].
Qed.

Lemma disabled_detector_is_silent_witness :
  let d := mkDetector false true "https://example.org/" None [] in
  let URL := fun url base : string => Some url in
  let moments := [mkMoment "https://example.org/" 1 (PushState (Some "/a"));
                  mkMoment "https://example.org/a" 2 Popstate;
                  mkMoment "https://example.org/a" 3 BeforeUnload] in
  received (run URL moments d) = []
  /\ currentUrl (run URL moments d) = "https://example.org/".
Proof.
  intros d URL moments.
  destruct (disabled_detector_is_silent URL d eq_refl) as [_ Hrun].
  destruct (Hrun moments) as (H1 & H2 & _).
  exact (conj H1 H2).
Defined.

(** ** The events the callback receives *)

Lemma url_after_app (url : string) (l1 l2 : list NavigationEvent) :
  url_after url (l1 ++ l2) = url_after (url_after url l1) l2.
Proof. unfold url_after. by rewrite foldl_app. Qed.

Lemma chained_app (url : string) (l1 l2 : list NavigationEvent) :
  chained url l1 -> chained (url_after url l1) l2 -> chained url (l1 ++ l2).
Proof.
  revert url. induction l1 as [|e l1 IH]; intros url; [done|].
  cbn [chained app]. intros [Hfrom Hrest] H2. split; [done|].
  apply IH; [done|]. exact H2.
Qed.

Lemma emitNavigation_returns (t : NavigationType) (how destination : string)
    (now : Z) (d : Detector) :
  exists events,
    (emitNavigation t how destination now (returns tt) d).2 = None
    /\ received (emitNavigation t how destination now (returns tt) d).1
       = (received d ++ events)%list
    /\ chained (currentUrl d) events
    /\ currentUrl (emitNavigation t how destination now (returns tt) d).1
       = url_after (currentUrl d) events
    /\ lastClickPrediction (emitNavigation t how destination now (returns tt) d).1
       = lastClickPrediction d
    /\ enabled (emitNavigation t how destination now (returns tt) d).1 = enabled d
    /\ callback (emitNavigation t how destination now (returns tt) d).1 = callback d.
Proof.
  unfold emitNavigation. destruct (callback d) eqn:Hcb; cbn.
  - exists [mkEvent t (currentUrl d) destination how now].
    destruct (decide (t = spa)) as [->|Hne]; cbn; split_and!; try done.
    by rewrite decide_False.
  - exists []. by rewrite app_nil_r.
Qed.

Lemma handle_chained (URL_href : string -> string -> option string)
    (href : string) (now : Z) (o : occurrence) (d : Detector) :
  is_click o = false -> lastClickPrediction d = None ->
  exists events,
    received (handle URL_href href now (returns tt) o d).1
    = (received d ++ events)%list
    /\ chained (currentUrl d) events
    /\ currentUrl (handle URL_href href now (returns tt) o d).1
       = url_after (currentUrl d) events
    /\ lastClickPrediction (handle URL_href href now (returns tt) o d).1 = None.
Proof.
  intros Hclick Hnone.
  assert (Hsame : exists events,
             received d = (received d ++ events)%list
             /\ chained (currentUrl d) events
             /\ currentUrl d = url_after (currentUrl d) events
             /\ lastClickPrediction d = None).
  { exists []. by rewrite app_nil_r. }
  assert (Hemit : forall t how destination,
             exists events,
               received (emitNavigation t how destination now (returns tt) d).1
               = (received d ++ events)%list
               /\ chained (currentUrl d) events
               /\ currentUrl (emitNavigation t how destination now (returns tt) d).1
                  = url_after (currentUrl d) events
               /\ lastClickPrediction
                    (emitNavigation t how destination now (returns tt) d).1 = None).
  { intros t how destination.
    destruct (emitNavigation_returns t how destination now d)
      as (events & _ & H1 & H2 & H3 & H4 & _).
    exists events. split_and!; try done. congruence. }
  destruct o; cbn [handle]; try done.
  - destruct (enabled d); [apply Hemit|apply Hsame].
  - destruct (enabled d); [apply Hemit|apply Hsame].
  - destruct (_ && _); [apply Hemit|apply Hsame].
  - destruct (enabled d); [apply Hemit|apply Hsame].
  - destruct (enabled d); [apply Hemit|apply Hsame].
  - destruct (enabled d); [apply Hemit|apply Hsame].
  - destruct (_ && _); [apply Hemit|apply Hsame].
  - destruct (enabled d); cbn; [|apply Hsame]. rewrite Hnone. apply Hemit.
  - exists []. cbn. by rewrite app_nil_r.
Qed.

Lemma run_cons (URL_href : string -> string -> option string)
    (m : moment) (moments : list moment) (d : Detector) :
  run URL_href (m :: moments) d
  = run URL_href moments
      (handle URL_href (moment_href m) (moment_now m) (returns tt) (what m) d).1.
Proof. done. Qed.

(** X13.  The events that the wrapped functions and the listeners send to
    the callback form a chain: each one starts at the URL the detector
    holds, which is the destination of the last in-page ([spa]) navigation it
    has sent, if any, and its URL at the start otherwise.  (The prediction of
    a click, which [beforeunload] passes on, is not such an event: no click
    is among the occurrences.) *)
Theorem emitted_events_are_chained (URL_href : string -> string -> option string)
    (moments : list moment) (d : Detector) :
  Forall (fun m => is_click (what m) = false) moments ->
  lastClickPrediction d = None ->
  exists events,
    received (run URL_href moments d) = (received d ++ events)%list
    /\ chained (currentUrl d) events
    /\ currentUrl (run URL_href moments d) = url_after (currentUrl d) events.
Proof.
  intros Hmoments. revert d.
  induction Hmoments as [|m moments Hm Hmoments IH]; intros d Hnone.
  { exists []. by rewrite app_nil_r. }
  rewrite run_cons.
  destruct (handle_chained URL_href (moment_href m) (moment_now m) (what m) d Hm Hnone)
    as (events1 & H1 & H2 & H3 & H4).
  destruct (IH _ H4) as (events2 & H5 & H6 & H7).
  exists (events1 ++ events2)%list. split_and!.
  - by rewrite H5, H1, <- app_assoc.
  - apply chained_app; [done|]. by rewrite <- H3.
  - by rewrite H7, H3, url_after_app.
Qed.

Lemma emitted_events_are_chained_witness :
  let d := mkDetector true true "https://example.org/" None [] in
  let URL := fun url base : string => Some ("https://example.org" ++ url) in
  let moments := [mkMoment "https://example.org/" 1 (PushState (Some "/a"));
                  mkMoment "https://example.org/a" 2 (WindowOpen (Some "/help"));
                  mkMoment "https://example.org/a" 3 (ReplaceState (Some "/b"));
                  mkMoment "https://example.org/b" 4 (LocationAssign "/c")] in
  from <$> received (run URL moments d)
  = ["https://example.org/"; "https://example.org/a"; "https://example.org/a";
     "https://example.org/b"]
  /\ chained "https://example.org/" (received (run URL moments d)).
Proof.
  intros d URL moments.
  destruct (emitted_events_are_chained URL moments d) as (events & H1 & H2 & _).
  - repeat constructor.
  - reflexivity.
  - cbn [received d app] in H1. rewrite H1. split; [|exact H2].
    rewrite <- H1. by vm_compute.
Defined.

(** ** A click, and the unload that may follow it *)

(** X14.  When a click on a link or inside a form predicts a navigation and
    the page unloads before the timer of the click has run, the callback
    receives that very prediction, made at the time of the click, and no
    close-window event; the prediction is used once.  When the timer has run
    first, or no click predicted anything, an unloading page gives the
    close-window event with the destination "unknown". *)
Theorem unload_after_click (URL_href : string -> string -> option string)
    (d : Detector) (target clickable : Element) (prediction : NavigationEvent)
    (href_click href_unload : string) (now_click now_unload : Z)
    (comes : reply unit) :
  enabled d = true -> callback d = true ->
  closest ["a"; "button"; "form"] target = Some clickable ->
  predictNavigation URL_href 2 href_click now_click (Some clickable)
  = Some (Some prediction) ->
  let clicked := (handle URL_href href_click now_click comes (Click (Some target)) d).1 in
  let unknown := {| type := close_window; from := currentUrl d; to := "unknown";
                    method := "beforeunload"; timestamp := now_unload |} in
  clicked = set_lastClickPrediction (Some prediction) d
  /\ handle URL_href href_unload now_unload (returns tt) BeforeUnload clicked
     = (receive prediction (set_lastClickPrediction None d), None)
  /\ handle URL_href href_unload now_unload (returns tt) BeforeUnload
       (receive prediction (set_lastClickPrediction None d))
     = (receive unknown (receive prediction (set_lastClickPrediction None d)), None)
  /\ handle URL_href href_unload now_unload (returns tt) BeforeUnload
       (handle URL_href href_unload now_unload (returns tt) PredictionTimeout clicked).1
     = (receive unknown (set_lastClickPrediction None d), None).
Proof.
  intros Hon Hcb Hclosest Hpredict clicked unknown.
  assert (Hclicked : clicked = set_lastClickPrediction (Some prediction) d).
  { unfold clicked. cbn [handle]. by rewrite Hon, Hclosest, Hpredict. }
  split; [done|]. rewrite Hclicked. cbn [handle].
  unfold emitNavigation, call_callback. cbn. rewrite Hon, Hcb. cbn.
  by split_and!.
Qed.

Lemma unload_after_click_witness :
  let d := mkDetector true true "https://example.org/" None [] in
  let URL := fun url base : string => Some ("https://example.org" ++ url) in
  let span := html "span" ∅ "" in
  let link := html "a" {[ "href" := "/cart" ]} "" in
  let moments := [mkMoment "https://example.org/" 1 (Click (Some (span, [link])));
                  mkMoment "https://example.org/" 2 BeforeUnload] in
  received (run URL moments d)
  = [{| type := mpa; from := "https://example.org/"; to := "https://example.org/cart";
        method := click_a; timestamp := 1 |}].
Proof.
  intros d URL span link moments.
  destruct (unload_after_click URL d (span, [link]) (link, [])
              {| type := mpa; from := "https://example.org/";
                 to := "https://example.org/cart";
                 method := click_a; timestamp := 1 |}
              "https://example.org/" "https://example.org/" 1 2 (returns tt))
    as (H1 & H2 & _); [reflexivity|reflexivity|by vm_compute|by vm_compute|].
  etrans; [exact (f_equal (fun r => received r.1) H2)|reflexivity].
Defined.

(** ** Going back and forth *)

(** X15.  The detector reports an in-page navigation once: a [popstate]
    event that finds the page at a new URL sends an [spa] event from the old
    URL to the new one, and a [popstate] event that finds the page at the URL
    of the last [spa] event, be it of [popstate] or of [pushState], sends
    nothing. *)
Theorem popstate_reports_once (URL_href : string -> string -> option string)
    (d : Detector) (href : string) (now now' : Z) (comes : reply unit) :
  enabled d = true -> callback d = true ->
  (href <> currentUrl d ->
   let moved := (handle URL_href href now (returns tt) Popstate d).1 in
   received moved
   = (received d ++ [{| type := spa; from := currentUrl d; to := href;
                        method := "popstate"; timestamp := now |}])%list
   /\ currentUrl moved = href
   /\ handle URL_href href now' comes Popstate moved = (moved, None))
  /\ (forall url,
        let pushed := (handle URL_href href now (returns tt) (PushState url) d).1 in
        currentUrl pushed = resolveURL URL_href href (default "" url)
        /\ handle URL_href (resolveURL URL_href href (default "" url)) now' comes
             Popstate pushed
           = (pushed, None)).
Proof.
  intros Hon Hcb. split.
  - intros Hnew moved.
    assert (Hmoved : moved
                     = set_currentUrl href
                         (receive {| type := spa; from := currentUrl d; to := href;
                                     method := "popstate"; timestamp := now |} d)).
    { unfold moved. cbn [handle]. rewrite Hon, bool_decide_false by done.
      unfold emitNavigation. by rewrite Hcb. }
    rewrite Hmoved. split_and!; try done.
    cbn [handle]. cbn. by rewrite Hon, bool_decide_true.
  - intros url pushed.
    assert (Hpushed : pushed
                      = set_currentUrl (resolveURL URL_href href (default "" url))
                          (receive {| type := spa; from := currentUrl d;
                                      to := resolveURL URL_href href (default "" url);
                                      method := "pushState"; timestamp := now |} d)).
    { unfold pushed. cbn [handle]. rewrite Hon.
      unfold emitNavigation. by rewrite Hcb. }
    rewrite Hpushed. split; [done|].
    cbn [handle]. cbn. by rewrite Hon, bool_decide_true.
Qed.

Lemma popstate_reports_once_witness :
  let d := mkDetector true true "https://example.org/" None [] in
  let URL := fun url base : string => Some ("https://example.org" ++ url) in
  let pushed := (handle URL "https://example.org/" 1 (returns tt)
                   (PushState (Some "/a")) d).1 in
  currentUrl pushed = "https://example.org/a"
  /\ handle URL "https://example.org/a" 2 (returns tt) Popstate pushed = (pushed, None)
  /\ length (received pushed) = 1%nat.
Proof.
  intros d URL pushed.
  destruct (popstate_reports_once URL d "https://example.org/" 1 2 (returns tt)
              eq_refl eq_refl) as [_ Hpush].
  destruct (Hpush (Some "/a")) as [H1 H2].
  split; [exact H1|]. split; [exact H2|]. by vm_compute.
Defined.
